(** * rdns-server, etcd backend: embedding and verified properties

    The development follows the Go package [etcd] of rdns-server
    (type [BackendOperator] and its methods).  Pure helpers become Rocq
    functions on byte strings; the methods that talk to the key-value store
    become computations in a small state-and-error monad over a world that
    holds the store, the caller's options object, the randomness consumed so
    far and the trace of the store calls issued. *)

From stdpp Require Import gmap strings list.
From Stdlib Require Import ZArith Ascii.

Open Scope string_scope.
Open Scope list_scope.

(* ===================================================================== *)
(** ** Go's [strings] package, on byte strings *)
(* ===================================================================== *)

Module strings.

(** [strings.Split(s, sep)] for a one-byte separator: never empty,
  [Split "" sep = [""]]. *)
Fixpoint Split (s : string) (sep : ascii) : list string :=
match s with
| EmptyString => [EmptyString]
| String c s' =>
    if Ascii.eqb c sep then EmptyString :: Split s' sep
    else match Split s' sep with
         | [] => [String c EmptyString]
         | x :: xs => String c x :: xs
         end
end.

(** [strings.Join(ss, sep)]. *)
Fixpoint Join (ss : list string) (sep : string) : string :=
match ss with
| [] => EmptyString
| [x] => x
| x :: xs => x +:+ sep +:+ Join xs sep
end.

(** [strings.Replace(s, old, new, -1)] for one-byte [old] and [new]:
  every occurrence is replaced. *)
Fixpoint ReplaceAll (s : string) (old new : ascii) : string :=
match s with
| EmptyString => EmptyString
| String c s' =>
    String (if Ascii.eqb c old then new else c) (ReplaceAll s' old new)
end.

(** [strings.Contains(s, substr)]. *)
Fixpoint Contains (s substr : string) : bool :=
if String.prefix substr s then true
else match s with
     | EmptyString => false
     | String _ s' => Contains s' substr
     end.

(** The byte [c] occurs in [s]. *)
Fixpoint has_byte (c : ascii) (s : string) : bool :=
match s with
| EmptyString => false
| String c' s' => Ascii.eqb c' c || has_byte c s'
end.

End strings.

(* ===================================================================== *)
(** ** Path encoder *)
(* ===================================================================== *)

Definition tokenOriginPath_const : string := "/token_origin".

(** [ss[i], ss[j] = ss[j], ss[i]]; Go panics out of range, which the loop
    of [convertToPath] never reaches. *)
Definition swap (i j : nat) (ss : list string) : list string :=
  match ss !! i, ss !! j with
  | Some a, Some b => <[i := b]> (<[j := a]> ss)
  | _, _ => ss
  end.

(** The loop [for i := 0; i < len(ss)/2; i++] of [convertToPath], with [k]
    iterations left. *)
Fixpoint reverse_loop (k i last : nat) (ss : list string) : list string :=
  match k with
  | O => ss
  | S k' => reverse_loop k' (S i) last (swap i (last - i) ss)
  end.

(** zhibo.test.rancher.local => /local/rancher/test/zhibo *)
Definition convertToPath (domain : string) : string :=
  let ss := strings.Split domain "." in
  let last := length ss - 1 in
  let ss := reverse_loop (length ss / 2) 0 last ss in
  "/" +:+ strings.Join ss "/".

(** 1.1.1.1 => 1_1_1_1 *)
Definition formatKey (key : string) : string :=
  strings.ReplaceAll key "." "_".

(** The spec's [decodeTokenPath], written from its words: drop the fixed
    root of the token path and substitute [.] back for [_]. *)
Definition decodeTokenPath (p : string) : string :=
  strings.ReplaceAll
    (String.substring (String.length (tokenOriginPath_const +:+ "/"))
       (String.length p - String.length (tokenOriginPath_const +:+ "/")) p)
    "_" ".".

(* ===================================================================== *)
(** ** Data model *)
(* ===================================================================== *)

(** Errors the backend can hand to its caller: an error response of the
    store ([client.Error] with its code), a failure to reach the store, or a
    [json.Unmarshal] failure on a stored value. *)
Inductive Error : Type :=
  | EtcdError (code : Z)
  | TransportError
  | UnmarshalError.

Definition ErrorCodeKeyNotFound : Z := 100.
Definition ErrorCodeNotFile : Z := 102.
Definition ErrorCodeNotDir : Z := 104.
Definition ErrorCodeNodeExist : Z := 105.
Definition ErrorCodeRootROnly : Z := 107.
Definition ErrorCodeDirNotEmpty : Z := 108.

(** [client.IsKeyNotFound]. *)
Definition IsKeyNotFound (err : Error) : bool :=
  match err with
  | EtcdError code => bool_decide (code = ErrorCodeKeyNotFound)
  | _ => false
  end.

(** [client.Node]: the fields the backend reads.  [Expiration] is the
    absolute expiry time in nanoseconds, [None] for Go's nil. *)
#[warnings="-register-all"]
Inductive Node : Type :=
  mkNode { Key : string; Dir : bool; Value : string;
           Nodes : list Node; Expiration : option Z }.

(** [client.Response]. *)
Record Response : Type := mkResponse { RespNode : Node }.

Inductive PrevExistType : Type := PrevIgnore | PrevExist | PrevNoExist.

Record GetOptions : Type :=
  mkGetOptions { get_Recursive : bool; get_Sort : bool }.
Record SetOptions : Type :=
  mkSetOptions { set_PrevExist : PrevExistType; set_TTL : Z; set_Dir : bool }.
Record DeleteOptions : Type :=
  mkDeleteOptions { del_Recursive : bool; del_Dir : bool }.

(** [client.KeysAPI], the interface of the key-value store, over a store
    state [S].  The Go client returns either a response or an error, never
    both, never neither. *)
Class KeysAPI (S : Type) : Type := {
  kGet : S → string → option GetOptions → (Error + Response) * S;
  kSet : S → string → string → option SetOptions → (Error + Response) * S;
  kDelete : S → string → option DeleteOptions → (Error + Response) * S
}.

(** What the backend takes from outside the package besides the store:
    [json.Unmarshal] into a [map[string]string], the two random-string
    generators of package [util] (by length and by the number of strings drawn
    before), and the order in which a [range] visits a Go map, which Go
    leaves unspecified beyond visiting every key once. *)
Class Runtime : Type := {
  json_Unmarshal : string → Error + gmap string string;
  RandStringWithSmall : nat → nat → string;
  RandStringWithAll : nat → nat → string;
  mapRange : gset string → list string;
  mapRange_perm : ∀ m, mapRange m ≡ₚ elements m
}.

(** Modelled from the spec: [model.DomainOptions] (package [model] is not
    part of the sources at hand): the fully-qualified name, the desired hosts
    and the text value. *)
Record DomainOptions : Type :=
  mkDomainOptions { o_Fqdn : string; o_Hosts : list string; o_Text : string }.

(** Modelled from the spec: [model.Domain], the snapshot handed back:
    name, hosts, text and expiration. *)
Record Domain : Type :=
  mkDomain { Fqdn : string; Hosts : list string; Text : string;
             DExpiration : option Z }.

(** Go's zero value [var d model.Domain]. *)
Definition zeroDomain : Domain := mkDomain "" [] "" None.

(** One call of the store, with its outcome. *)
Inductive Event : Type :=
  | EvGet (key : string) (opts : option GetOptions) (res : Error + Response)
  | EvSet (key value : string) (opts : option SetOptions)
      (res : Error + Response)
  | EvDelete (key : string) (opts : option DeleteOptions)
      (res : Error + Response).

(** The world a method runs in: the store behind [e.kapi], the
    [DomainOptions] object the caller passed by pointer, the number of random
    strings drawn so far, and (ghost) the store calls issued, oldest first. *)
Record World (S : Type) : Type :=
  mkWorld { store : S; dopts : DomainOptions; draws : nat;
            trace : list Event }.
Arguments mkWorld {S}.
Arguments store {S}.
Arguments dopts {S}.
Arguments draws {S}.
Arguments trace {S}.

(* ===================================================================== *)
(** ** The state-and-error monad of the methods *)
(* ===================================================================== *)

(** A computation either returns [A] or leaves early with [E] (what the Go
    function returns next to a non-nil [err]); the world is kept in both
    cases. *)
Definition M (S E A : Type) : Type := World S → (E + A) * World S.

Definition ret {S E A} (a : A) : M S E A := λ w, (inr a, w).

Definition bind {S E A B} (m : M S E A) (k : A → M S E B) : M S E B :=
  λ w, match m w with
       | (inr a, w') => k a w'
       | (inl e, w') => (inl e, w')
       end.

(** [if err != nil { return f(err) }]. *)
Definition mapErr {S E E' A} (f : E → E') (m : M S E A) : M S E' A :=
  λ w, match m w with
       | (inr a, w') => (inr a, w')
       | (inl e, w') => (inl (f e), w')
       end.

(** Run [m] and hand its outcome, error or not, to the code that follows. *)
Definition attempt {S E E' A} (m : M S E A) : M S E' (E + A) :=
  λ w, let '(r, w') := m w in (inr r, w').

Declare Scope M_scope.
Delimit Scope M_scope with M.
Notation "x <- m ;; k" := (bind m (λ x, k))
  (at level 100, m at next level, right associativity) : M_scope.
Notation "m ;;; k" := (bind m (λ _, k))
  (at level 100, right associativity) : M_scope.

(** [for _, x := range l { body x }], leaving at the first error. *)
Fixpoint forM_ {S E A} (l : list A) (body : A → M S E unit) : M S E unit :=
  match l with
  | [] => ret tt
  | x :: l' => bind (body x) (λ _, forM_ l' body)
  end.

(** The pointer argument [dopts]: reading the object and the one
    assignment the package makes to it, [dopts.Fqdn = fqdn]. *)
Definition readDopts {S E} : M S E DomainOptions := λ w, (inr (dopts w), w).

Definition setFqdn {S E} (fqdn : string) : M S E unit :=
  λ w, (inr tt,
        mkWorld (store w)
          (mkDomainOptions fqdn (o_Hosts (dopts w)) (o_Text (dopts w)))
          (draws w) (trace w)).

Section kapi.
Context {S : Type} `{!KeysAPI S}.

(** [e.kapi.Get(context.Background(), key, opts)] and its siblings: the
    store moves on and the call is recorded. *)
Definition kapi_Get (key : string) (opts : option GetOptions)
  : M S Error Response :=
  λ w, let '(r, s') := kGet (store w) key opts in
       (r, mkWorld s' (dopts w) (draws w) (trace w ++ [EvGet key opts r])).

Definition kapi_Set (key value : string) (opts : option SetOptions)
  : M S Error Response :=
  λ w, let '(r, s') := kSet (store w) key value opts in
       (r, mkWorld s' (dopts w) (draws w)
             (trace w ++ [EvSet key value opts r])).

Definition kapi_Delete (key : string) (opts : option DeleteOptions)
  : M S Error Response :=
  λ w, let '(r, s') := kDelete (store w) key opts in
       (r, mkWorld s' (dopts w) (draws w)
             (trace w ++ [EvDelete key opts r])).
End kapi.

(* ===================================================================== *)
(** ** The etcd backend *)
(* ===================================================================== *)

Definition BackendName : string := "etcd".
Definition ValueHostKey : string := "host".
Definition ValueTextKey : string := "text".
(** [DefaultTTL = "240h"], as [time.ParseDuration] reads it: nanoseconds. *)
Definition DefaultTTL : Z := 240 * 3600 * 1000000000.
Definition maxSlugHashTimes : nat := 100.
Definition slugLength : nat := 6.
Definition tokenOriginLength : nat := 32.

(** The double-quote byte of the Go format strings. *)
Definition dquote : string := String (ascii_of_nat 34) EmptyString.

(** [BackendOperator] without its store handle, which is the [KeysAPI]
    instance in scope. *)
Record BackendOperator : Type :=
  mkBackendOperator { prePath : string; duration : Z; rootDomain : string }.

Definition NewEtcdBackend (prePath rootDomain : string) : BackendOperator :=
  mkBackendOperator prePath DefaultTTL rootDomain.

(** 1.1.1.1 becomes the JSON object with the one field host, 1.1.1.1. *)
Definition formatValue (value : string) : string :=
  "{" +:+ dquote +:+ ValueHostKey +:+ dquote +:+ ":" +:+ dquote +:+ value
  +:+ dquote +:+ "}".

Definition formatTextValue (value : string) : string :=
  "{" +:+ dquote +:+ ValueTextKey +:+ dquote +:+ ":" +:+ dquote +:+ value
  +:+ dquote +:+ "}".

(** [sliceToMap]: the keys of the [map[string]bool] it builds (every value
    stored is [true]). *)
Definition sliceToMap (ss : list string) : gset string :=
  foldl (λ m s, {[ s ]} ∪ m) ∅ ss.

(** The keys of a node and of everything below it, parent first. *)
Fixpoint nodeKeys (node : Node) : list string :=
  Key node :: flat_map nodeKeys (Nodes node).

(** [nodesToStringSlice]; its recursive equation is
    [nodesToStringSlice_cons] below. *)
Definition nodesToStringSlice (nodes : list Node) : list string :=
  flat_map nodeKeys nodes.

(** Induction on a node with the claim available for its children. *)
Fixpoint Node_nested_ind (P : Node → Prop)
    (step : ∀ key dir value nodes expiration,
        Forall P nodes → P (mkNode key dir value nodes expiration))
    (node : Node) : P node :=
  match node with
  | mkNode key dir value nodes expiration =>
      step key dir value nodes expiration
        ((fix children (ns : list Node) : Forall P ns :=
            match ns with
            | [] => @List.Forall_nil Node P
            | n :: ns' =>
                @List.Forall_cons Node P n ns' (Node_nested_ind P step n)
                  (children ns')
            end) nodes)
  end.

(** [m[key]] on a Go [map[string]string]: the zero value when absent. *)
Definition mapIndex (m : gmap string string) (key : string) : string :=
  default "" (m !! key).

Section backend.
Context {S : Type} {K : KeysAPI S} {R : Runtime}.
Implicit Types (e : BackendOperator) (path : string).

Local Open Scope M_scope.

Definition convertToMap (value : string) : Error + gmap string string :=
  json_Unmarshal value.

Definition generateSlug {E} : M S E string :=
  λ w, (inr (RandStringWithSmall slugLength (draws w)),
        mkWorld (store w) (dopts w) (Datatypes.S (draws w)) (trace w)).

Definition generateTokenOrigin {E} : M S E string :=
  λ w, (inr (RandStringWithAll tokenOriginLength (draws w)),
        mkWorld (store w) (dopts w) (Datatypes.S (draws w)) (trace w)).

Definition path e (domainName : string) : string :=
  prePath e +:+ convertToPath domainName.

Definition tokenOriginPath e (domainName : string) : string :=
  tokenOriginPath_const +:+ "/" +:+ formatKey domainName.

(** The loop of [lookupHosts] over [resp.Node.Nodes]. *)
Fixpoint lookupHosts_loop (nodes : list Node) (hosts : list string)
  : (list string * Error) + list string :=
  match nodes with
  | [] => inr hosts
  | n :: nodes' =>
      match convertToMap (Value n) with
      | inl err => inl (hosts, err)
      | inr v => lookupHosts_loop nodes' (hosts ++ [mapIndex v ValueHostKey])
      end
  end.

Definition lookupHosts path : M S (list string * Error) (list string) :=
  let opts := mkGetOptions true false in
  resp <- mapErr (λ err, ([], err)) (kapi_Get path (Some opts)) ;;
  λ w, (lookupHosts_loop (Nodes (RespNode resp)) [], w).

Definition setTokenOrigin e (exist : bool) : M S Error unit :=
  let opts :=
    mkSetOptions (if exist then PrevExist else PrevIgnore) (duration e) false
  in
  o <- readDopts ;;
  let tokenOriginPath := tokenOriginPath e (o_Fqdn o) in
  r <- attempt (kapi_Get tokenOriginPath None) ;;
  tokenOrigin <- match r with
                 | inr resp => ret (Value (RespNode resp))
                 | inl _ => generateTokenOrigin
                 end ;;
  kapi_Set tokenOriginPath tokenOrigin (Some opts) ;;;
  ret tt.

(** The two reconciliation loops of [set], over the hosts read from the
    store and the hosts asked for. *)
Definition set_hosts path (d : Domain) (curHosts newHosts : list string)
  : M S (Domain * Error) unit :=
  let newHostsMap := sliceToMap newHosts in
  let oldHostsMap := sliceToMap curHosts in
  forM_ (mapRange oldHostsMap) (λ oldh,
    if bool_decide (oldh ∈ newHostsMap) then ret tt
    else
      let key := path +:+ "/" +:+ formatKey oldh in
      mapErr (pair d) (kapi_Delete key None) ;;; ret tt) ;;;
  forM_ (mapRange newHostsMap) (λ newh,
    if bool_decide (newh ∈ oldHostsMap) then ret tt
    else
      let key := path +:+ "/" +:+ formatKey newh in
      mapErr (pair d) (kapi_Set key (formatValue newh) None) ;;; ret tt).

Definition set e path (exist : bool) : M S (Domain * Error) Domain :=
  let d := zeroDomain in
  mapErr (pair d) (setTokenOrigin e exist) ;;;
  let opts :=
    mkSetOptions (if exist then PrevExist else PrevIgnore) (duration e) true
  in
  resp <- mapErr (pair d) (kapi_Set path "" (Some opts)) ;;
  curHosts <- mapErr (λ r, (d, r.2)) (lookupHosts path) ;;
  o <- readDopts ;;
  set_hosts path d curHosts (o_Hosts o) ;;;
  o <- readDopts ;;
  ret (mkDomain (o_Fqdn o) (o_Hosts o) "" (Expiration (RespNode resp))).

Definition setText e path (exist : bool) : M S (Domain * Error) Domain :=
  let d := zeroDomain in
  let opts :=
    mkSetOptions (if exist then PrevExist else PrevIgnore) (duration e) false
  in
  o <- readDopts ;;
  resp <- mapErr (pair d)
            (kapi_Set path (formatTextValue (o_Text o)) (Some opts)) ;;
  o <- readDopts ;;
  ret (mkDomain (o_Fqdn o) [] (o_Text o) (Expiration (RespNode resp))).

(** The loop of [refreshExpiration] over the keys listed under the ACME
    namespace. *)
Definition refresh_acme e (d : Domain) (subKeys : list string)
  : M S (Domain * Error) unit :=
  forM_ subKeys (λ key,
    o <- readDopts ;;
    let splits := strings.Split (o_Fqdn o) "." in
    let source := strings.Join splits "/" in
    if strings.Contains key source then
      getResp <- mapErr (pair d) (kapi_Get key (Some (mkGetOptions false false))) ;;
      let acmeOpts := mkSetOptions PrevExist (duration e) false in
      mapErr (pair d)
        (kapi_Set key (Value (RespNode getResp)) (Some acmeOpts)) ;;;
      ret tt
    else ret tt).

Definition refreshExpiration e path : M S (Domain * Error) Domain :=
  let d := zeroDomain in
  mapErr (pair d) (setTokenOrigin e true) ;;;
  let opts := mkSetOptions PrevExist (duration e) true in
  resp <- mapErr (pair d) (kapi_Set path "" (Some opts)) ;;
  curHosts <- mapErr (λ r, (d, r.2)) (lookupHosts path) ;;
  o <- readDopts ;;
  let d := mkDomain (o_Fqdn o) curHosts "" (Expiration (RespNode resp)) in
  let getOpts := mkGetOptions true true in
  getResp <- mapErr (pair d)
               (kapi_Get (prePath e +:+ "/_txt/_acme-challenge")
                  (Some getOpts)) ;;
  let subKeys := nodesToStringSlice (Nodes (RespNode getResp)) in
  refresh_acme e d subKeys ;;;
  ret d.

(** The loop of [Get] over [resp.Node.Nodes]; on a value that does not
    parse, [d] is returned as filled so far. *)
Fixpoint Get_loop (nodes : list Node) (d : Domain) : (Domain * Error) + Domain :=
  match nodes with
  | [] => inr d
  | n :: nodes' =>
      if Dir n then Get_loop nodes' d
      else match convertToMap (Value n) with
           | inl err => inl (d, err)
           | inr v =>
               Get_loop nodes'
                 (mkDomain (Fqdn d) (Hosts d ++ [mapIndex v ValueHostKey])
                    (Text d) (DExpiration d))
           end
  end.

Definition Get e : M S (Domain * Error) Domain :=
  let d := zeroDomain in
  o <- readDopts ;;
  let path := path e (o_Fqdn o) in
  resp <- mapErr (pair d) (kapi_Get path None) ;;
  o <- readDopts ;;
  let d := mkDomain (o_Fqdn o) [] "" (Expiration (RespNode resp)) in
  λ w, (Get_loop (Nodes (RespNode resp)) d, w).

(** The slug loop of [Create] with [n] iterations left; [path] is the
    variable declared before the loop. *)
Fixpoint Create_loop e (n : nat) (path0 : string) : M S (Domain * Error) string :=
  match n with
  | O => ret path0
  | Datatypes.S n' =>
      slug <- generateSlug ;;
      let fqdn := slug +:+ "." +:+ rootDomain e in
      let path1 := path e fqdn in
      r <- attempt (kapi_Get path1 None) ;;
      match r with
      | inl err =>
          if IsKeyNotFound err then setFqdn fqdn ;;; ret path1
          else Create_loop e n' path1
      | inr _ => Create_loop e n' path1
      end
  end.

Definition Create e : M S (Domain * Error) Domain :=
  path <- Create_loop e maxSlugHashTimes "" ;;
  set e path false ;;;
  Get e.

Definition Update e : M S (Domain * Error) Domain :=
  o <- readDopts ;;
  let path := path e (o_Fqdn o) in
  r <- attempt (kapi_Get path (Some (mkGetOptions false false))) ;;
  let exist := match r with
               | inr resp => Dir (RespNode resp)
               | inl _ => false
               end in
  set e path exist.

Definition Renew e : M S (Domain * Error) Domain :=
  o <- readDopts ;;
  let path := path e (o_Fqdn o) in
  refreshExpiration e path.

Definition Delete e : M S Error unit :=
  o <- readDopts ;;
  let path := path e (o_Fqdn o) in
  let opts := mkDeleteOptions true true in
  kapi_Delete path (Some opts) ;;;
  ret tt.

(** The path of a text record, computed the same way at the head of
    [CreateText], [GetText], [UpdateText] and [DeleteText]:
    _acme-challenge.x1.lb.rancher.cloud is kept under
    /rdns/_txt/_acme-challenge/x1/lb/rancher/cloud. *)
Definition textPath e (fqdn : string) : string :=
  if strings.Contains fqdn "_acme-challenge" then
    let temp := "_txt" +:+ "." +:+ fqdn in
    let tempSlice := strings.Split temp "." in
    prePath e +:+ "/" +:+ strings.Join tempSlice "/"
  else path e fqdn.

Definition CreateText e : M S (Domain * Error) Domain :=
  o <- readDopts ;;
  let fqdn := o_Fqdn o in
  let path := textPath e fqdn in
  r <- attempt (kapi_Get path None) ;;
  let exist := match r with
               | inl err => if IsKeyNotFound err then false else true
               | inr _ => true
               end in
  setText e path exist.

Definition GetText e : M S (Domain * Error) Domain :=
  let d := zeroDomain in
  o <- readDopts ;;
  let fqdn := o_Fqdn o in
  let path := textPath e fqdn in
  resp <- mapErr (pair d) (kapi_Get path None) ;;
  o <- readDopts ;;
  ret (mkDomain (o_Fqdn o) [] (Value (RespNode resp))
         (Expiration (RespNode resp))).

Definition UpdateText e : M S (Domain * Error) Domain :=
  o <- readDopts ;;
  let fqdn := o_Fqdn o in
  let path := textPath e fqdn in
  r <- attempt (kapi_Get path (Some (mkGetOptions false false))) ;;
  let exist := match r with
               | inr resp => Dir (RespNode resp)
               | inl _ => false
               end in
  setText e path exist.

Definition DeleteText e : M S Error unit :=
  o <- readDopts ;;
  let fqdn := o_Fqdn o in
  let path := textPath e fqdn in
  let opts := mkDeleteOptions true true in
  kapi_Delete path (Some opts) ;;;
  ret tt.

Definition GetTokenOrigin e (fqdn : string) : M S Error string :=
  let tokenOriginPath := tokenOriginPath e fqdn in
  resp <- kapi_Get tokenOriginPath None ;;
  ret (Value (RespNode resp)).
End backend.

(* ===================================================================== *)
(** ** An in-memory store and a fixed runtime, for running the methods *)
(* ===================================================================== *)

(** A directory tree with the behaviour of the etcd v2 keys API that the
    backend relies on: keys are slash-separated paths, a write creates the
    missing directories above it, [PrevExist] turns a write into an update
    of an existing node, a plain write replaces a file but refuses to replace
    a directory, and a read of a directory lists its children (all levels
    when recursive).  Time stands still at [now]; nothing expires. *)
Module MemStore.

Record t : Type := mk { root : list Node; now : Z }.

Definition empty : t := mk [] 0.

(** The same tree, seen when the clock reads [t0]. *)
Definition at_time (t0 : Z) (s : t) : t := mk (root s) t0.

Definition segments (key : string) : list string :=
  List.filter (λ s, negb (String.eqb s "")) (strings.Split key "/").

Definition child (key : string) (nodes : list Node) : option Node :=
  List.find (λ n, String.eqb (Key n) key) nodes.

Fixpoint put_child (n : Node) (nodes : list Node) : list Node :=
  match nodes with
  | [] => [n]
  | m :: nodes' =>
      if String.eqb (Key m) (Key n) then n :: nodes'
      else if String.ltb (Key n) (Key m) then n :: m :: nodes'
      else m :: put_child n nodes'
  end.

Definition del_child (key : string) (nodes : list Node) : list Node :=
  List.filter (λ m, negb (String.eqb (Key m) key)) nodes.

Definition bare (n : Node) : Node :=
  mkNode (Key n) (Dir n) (Value n) [] (Expiration n).

Fixpoint walk (segs : list string) (prefix : string) (nodes : list Node)
  : Error + Node :=
  match segs with
  | [] => inl (EtcdError ErrorCodeKeyNotFound)
  | seg :: rest =>
      let key := prefix +:+ "/" +:+ seg in
      match child key nodes with
      | None => inl (EtcdError ErrorCodeKeyNotFound)
      | Some n =>
          match rest with
          | [] => inr n
          | _ => if Dir n then walk rest key (Nodes n)
                 else inl (EtcdError ErrorCodeNotDir)
          end
      end
  end.

(** Change the node at a path; [f] sees the key and the node there, if
    any, and answers with the node to keep (or none) and the node to
    report. *)
Fixpoint alter (segs : list string) (prefix : string)
    (f : string → option Node → Error + (option Node * Node))
    (nodes : list Node) : Error + (list Node * Node) :=
  match segs with
  | [] => inl (EtcdError ErrorCodeRootROnly)
  | seg :: rest =>
      let key := prefix +:+ "/" +:+ seg in
      match rest with
      | [] =>
          match f key (child key nodes) with
          | inl err => inl err
          | inr (Some n', out) => inr (put_child n' nodes, out)
          | inr (None, out) => inr (del_child key nodes, out)
          end
      | _ =>
          match child key nodes with
          | None =>
              match alter rest key f [] with
              | inl err => inl err
              | inr (cs, out) =>
                  inr (put_child (mkNode key true "" cs None) nodes, out)
              end
          | Some n =>
              if Dir n then
                match alter rest key f (Nodes n) with
                | inl err => inl err
                | inr (cs, out) =>
                    inr (put_child
                           (mkNode key true "" cs (Expiration n)) nodes,
                         out)
                end
              else inl (EtcdError ErrorCodeNotDir)
          end
      end
  end.

Definition expiry (s : t) (ttl : Z) : option Z :=
  if bool_decide (0 < ttl)%Z then Some (now s + ttl)%Z else None.

Definition set_node (s : t) (value : string) (opts : option SetOptions)
    (key : string) (old : option Node) : Error + (option Node * Node) :=
  let ttl := from_option set_TTL 0%Z opts in
  let dir := from_option set_Dir false opts in
  let fresh := mkNode key dir (if dir then "" else value) [] (expiry s ttl) in
  match from_option set_PrevExist PrevIgnore opts, old with
  | PrevExist, None => inl (EtcdError ErrorCodeKeyNotFound)
  | PrevExist, Some n =>
      if Dir n && negb (String.eqb value "")
      then inl (EtcdError ErrorCodeNotFile)
      else
        let n' := mkNode key (Dir n) (if Dir n then "" else value)
                    (Nodes n) (expiry s ttl) in
        inr (Some n', bare n')
  | PrevNoExist, Some _ => inl (EtcdError ErrorCodeNodeExist)
  | PrevIgnore, Some n =>
      if Dir n then inl (EtcdError ErrorCodeNotFile)
      else inr (Some fresh, fresh)
  | _, None => inr (Some fresh, fresh)
  end.

Definition del_node (opts : option DeleteOptions)
    (key : string) (old : option Node) : Error + (option Node * Node) :=
  let recursive := from_option del_Recursive false opts in
  let dir := from_option del_Dir false opts || recursive in
  match old with
  | None => inl (EtcdError ErrorCodeKeyNotFound)
  | Some n =>
      if Dir n && negb dir then inl (EtcdError ErrorCodeNotFile)
      else if Dir n && negb recursive
              && negb (Nat.eqb (length (Nodes n)) 0)
      then inl (EtcdError ErrorCodeDirNotEmpty)
      else inr (None, bare n)
  end.

Definition view (recursive : bool) (n : Node) : Node :=
  if recursive then n
  else mkNode (Key n) (Dir n) (Value n) (map bare (Nodes n)) (Expiration n).

Definition get (s : t) (key : string) (opts : option GetOptions)
  : (Error + Response) * t :=
  let recursive := from_option get_Recursive false opts in
  match segments key with
  | [] => (inr (mkResponse (view recursive (mkNode "/" true "" (root s) None))), s)
  | segs =>
      match walk segs "" (root s) with
      | inl err => (inl err, s)
      | inr n => (inr (mkResponse (view recursive n)), s)
      end
  end.

Definition set (s : t) (key value : string) (opts : option SetOptions)
  : (Error + Response) * t :=
  match alter (segments key) "" (set_node s value opts) (root s) with
  | inl err => (inl err, s)
  | inr (nodes, out) => (inr (mkResponse out), mk nodes (now s))
  end.

Definition delete (s : t) (key : string) (opts : option DeleteOptions)
  : (Error + Response) * t :=
  match alter (segments key) "" (del_node opts) (root s) with
  | inl err => (inl err, s)
  | inr (nodes, out) => (inr (mkResponse out), mk nodes (now s))
  end.

#[global] Instance keysAPI : KeysAPI t :=
  {| kGet := get; kSet := set; kDelete := delete |}.

End MemStore.

(** The in-memory store behind a connection that fails once: with
    [fails_in = Some k], the read after [k] further reads gets no answer from
    the store and the client returns an error that is not an etcd error, as
    it does when the request times out; every other call is answered by the
    in-memory store. *)
Module FlakyStore.

Record t : Type := mk { inner : MemStore.t; fails_in : option nat }.

Definition get (s : t) (key : string) (opts : option GetOptions)
  : (Error + Response) * t :=
  match fails_in s with
  | Some 0 => (inl TransportError, mk (inner s) None)
  | Some (Datatypes.S k) =>
      let r := MemStore.get (inner s) key opts in (r.1, mk r.2 (Some k))
  | None =>
      let r := MemStore.get (inner s) key opts in (r.1, mk r.2 None)
  end.

Definition set (s : t) (key value : string) (opts : option SetOptions)
  : (Error + Response) * t :=
  let r := MemStore.set (inner s) key value opts in
  (r.1, mk r.2 (fails_in s)).

Definition delete (s : t) (key : string) (opts : option DeleteOptions)
  : (Error + Response) * t :=
  let r := MemStore.delete (inner s) key opts in
  (r.1, mk r.2 (fails_in s)).

#[global] Instance keysAPI : KeysAPI t :=
  {| kGet := get; kSet := set; kDelete := delete |}.

End FlakyStore.

(** A stand-in for [json.Unmarshal] on the one shape the backend stores: an
    object with a single string field, without escapes. *)
Module FlatJson.

Fixpoint until_quote (s : string) : option (string * string) :=
  match s with
  | EmptyString => None
  | String c s' =>
      if Ascii.eqb c (ascii_of_nat 34) then Some (EmptyString, s')
      else match until_quote s' with
           | Some (a, r) => Some (String c a, r)
           | None => None
           end
  end.

Definition strip_prefix (p s : string) : option string :=
  if String.prefix p s
  then Some (String.substring (String.length p)
               (String.length s - String.length p) s)
  else None.

Definition parse (s : string) : Error + gmap string string :=
  match strip_prefix ("{" +:+ dquote) s with
  | None => inl UnmarshalError
  | Some r =>
      match until_quote r with
      | None => inl UnmarshalError
      | Some (k, r) =>
          match strip_prefix (":" +:+ dquote) r with
          | None => inl UnmarshalError
          | Some r =>
              match until_quote r with
              | None => inl UnmarshalError
              | Some (v, r) =>
                  if String.eqb r "}" then inr {[ k := v ]}
                  else inl UnmarshalError
              end
          end
      end
  end.

End FlatJson.

(** A runtime whose random strings are given by [small] and [all] (by draw
    number) and whose maps are visited in the order of [elements]. *)
Definition fixedRuntime (small all : nat → string) : Runtime :=
  {| json_Unmarshal := FlatJson.parse;
     RandStringWithSmall := λ _ k, small k;
     RandStringWithAll := λ _ k, all k;
     mapRange := elements;
     mapRange_perm := λ m, reflexivity (elements m) |}.

(* ===================================================================== *)
(** * Verified properties *)
(* ===================================================================== *)

(** ** Strings *)

Section string_facts.
Import strings.

Lemma Split_nonempty s c : Split s c ≠ [].
Proof.
  destruct s as [|a s]; simpl; [done|].
  destruct (Ascii.eqb a c); [done|]. by destruct (Split s c).
Qed.

Lemma Join_cons x y ys sep :
  Join (x :: y :: ys) sep = x +:+ sep +:+ Join (y :: ys) sep.
Proof. reflexivity. Qed.

Lemma Join_Split s c : Join (Split s c) (String c EmptyString) = s.
Proof.
  induction s as [|a s IH]; simpl; [done|].
  destruct (Ascii.eqb_spec a c) as [->|Hne].
  - pose proof (Split_nonempty s c) as Hn.
    destruct (Split s c) as [|y ys] eqn:E; [done|].
    rewrite Join_cons, IH. done.
  - pose proof (Split_nonempty s c) as Hn.
    destruct (Split s c) as [|y ys] eqn:E; [done|].
    destruct ys as [|z zs]; [simpl in *; by rewrite IH|].
    rewrite Join_cons. rewrite Join_cons in IH. rewrite <- IH. reflexivity.
Qed.

Lemma Split_inj s1 s2 c : Split s1 c = Split s2 c → s1 = s2.
Proof.
  intros H. rewrite <- (Join_Split s1 c), <- (Join_Split s2 c). by rewrite H.
Qed.

Lemma Split_no_sep s c : has_byte c s = false → Split s c = [s].
Proof.
  induction s as [|a s IH]; simpl; [done|].
  intros [Ha Hs]%orb_false_iff. rewrite Ha, (IH Hs). done.
Qed.

Lemma Split_app_sep x s c :
  has_byte c x = false →
  Split (x +:+ String c s) c = x :: Split s c.
Proof.
  induction x as [|a x IH]; simpl.
  - intros _. by rewrite Ascii.eqb_refl.
  - intros [Ha Hx]%orb_false_iff. rewrite Ha, (IH Hx). done.
Qed.

Lemma Split_Join l c :
  l ≠ [] → Forall (λ x, has_byte c x = false) l →
  Split (Join l (String c EmptyString)) c = l.
Proof.
  induction l as [|x l IH]; [done|]. intros _ Hall.
  apply Forall_cons in Hall as [Hx Hl].
  destruct l as [|y l].
  - simpl. by apply Split_no_sep.
  - change (Join (x :: y :: l) (String c EmptyString))
      with (x +:+ String c (Join (y :: l) (String c EmptyString))).
    rewrite Split_app_sep by done. f_equal. by apply IH.
Qed.

Lemma Split_has_byte s c :
  has_byte c s = false → Forall (λ x, has_byte c x = false) (Split s "."%char).
Proof.
  induction s as [|a s IH]; simpl.
  - intros _. by repeat constructor.
  - intros [Ha Hs]%orb_false_iff. specialize (IH Hs).
    destruct (Ascii.eqb a "."); [by constructor|].
    destruct (Split s ".") as [|y ys]; simpl.
    + repeat constructor. simpl. by rewrite Ha.
    + apply Forall_cons in IH as [Hy Hys]. constructor; [|done].
      simpl. by rewrite Ha, Hy.
Qed.

Lemma ReplaceAll_length s a b :
  String.length (ReplaceAll s a b) = String.length s.
Proof. induction s; simpl; congruence. Qed.

Lemma ReplaceAll_back s a b :
  has_byte b s = false → ReplaceAll (ReplaceAll s a b) b a = s.
Proof.
  induction s as [|x s IH]; simpl; [done|].
  intros [Hx Hs]%orb_false_iff. rewrite (IH Hs). f_equal.
  destruct (Ascii.eqb_spec x a) as [->|Hne].
  - by rewrite Ascii.eqb_refl.
  - by rewrite Hx.
Qed.

Lemma string_app_inv_head (p s t : string) : p +:+ s = p +:+ t → s = t.
Proof. induction p; simpl; [done|]. intros [=]. auto. Qed.

Lemma substring_all (s : string) :
  String.substring 0 (String.length s) s = s.
Proof. induction s as [|b s IHs]; simpl; [done|]. by rewrite IHs. Qed.

Lemma substring_drop_prefix (p s : string) :
  String.substring (String.length p)
    (String.length (p +:+ s) - String.length p) (p +:+ s) = s.
Proof.
  induction p as [|a p IH].
  - change (EmptyString +:+ s) with s. simpl String.length at 1 3.
    rewrite Nat.sub_0_r. apply substring_all.
  - change (String a p +:+ s) with (String a (p +:+ s)).
    simpl String.length. rewrite Nat.sub_succ. simpl. apply IH.
Qed.
End string_facts.

(** ** Path encoder *)

(** The recursive equation of the Go function: the key of the node, the
    keys below it, then the keys of the nodes that follow. *)
Lemma nodesToStringSlice_cons node nodes :
  nodesToStringSlice (node :: nodes)
  = Key node :: nodesToStringSlice (Nodes node) ++ nodesToStringSlice nodes.
Proof. by destruct node. Qed.

Section path_encoder.
Import strings.

Lemma swap_length i j ss : length (swap i j ss) = length ss.
Proof.
  unfold swap. destruct (ss !! i), (ss !! j); try done.
  by rewrite !length_insert.
Qed.

Lemma swap_lookup i j k ss :
  i < length ss → j < length ss →
  swap i j ss !! k =
    if decide (k = i) then ss !! j
    else if decide (k = j) then ss !! i else ss !! k.
Proof.
  intros Hi Hj. unfold swap.
  destruct (lookup_lt_is_Some_2 ss i Hi) as [a Ha].
  destruct (lookup_lt_is_Some_2 ss j Hj) as [b Hb].
  rewrite Ha, Hb.
  destruct (decide (k = i)) as [->|Hki].
  - rewrite list_lookup_insert_eq; [done|]. by rewrite length_insert.
  - rewrite list_lookup_insert_ne by done.
    destruct (decide (k = j)) as [->|Hkj].
    + by rewrite list_lookup_insert_eq.
    + by rewrite list_lookup_insert_ne.
Qed.

(** What the slice holds after the loop has swapped positions
    [0..i) with their mirrors. *)
Definition mirrored (ss0 : list string) (i : nat) (l : list string) : Prop :=
  length l = length ss0 ∧
  ∀ j, j < length ss0 →
    l !! j = if decide (j < i ∨ length ss0 - 1 - i < j)
             then ss0 !! (length ss0 - 1 - j) else ss0 !! j.

Lemma reverse_loop_mirrored ss0 k : ∀ i l,
  i + k <= length ss0 / 2 →
  mirrored ss0 i l →
  mirrored ss0 (i + k) (reverse_loop k i (length ss0 - 1) l).
Proof.
  induction k as [|k IH]; intros i l Hk [Hlen Hl]; simpl.
  - rewrite Nat.add_0_r. by split.
  - replace (i + S k) with (S i + k) by lia. apply IH; [lia|].
    assert (Hi : i < length ss0 / 2) by lia.
    assert (Hn : 2 * (length ss0 / 2) <= length ss0)
      by (apply Nat.Div0.mul_div_le).
    split; [by rewrite swap_length|].
    intros j Hj. rewrite swap_lookup by lia.
    repeat case_decide; subst; rewrite ?Hl by lia;
      repeat case_decide; try lia; try done; f_equal; lia.
Qed.

Lemma reverse_loop_reverse ss :
  reverse_loop (length ss / 2) 0 (length ss - 1) ss = reverse ss.
Proof.
  destruct (reverse_loop_mirrored ss (length ss / 2) 0 ss) as [Hlen Hl].
  - lia.
  - split; [done|]. intros j Hj. case_decide; [lia|done].
  - assert (Hn : 2 * (length ss / 2) <= length ss)
      by (apply Nat.Div0.mul_div_le).
    assert (Hm : length ss < 2 * (length ss / 2) + 2).
    { pose proof (Nat.div_mod_eq (length ss) 2) as Hd.
      pose proof (Nat.mod_upper_bound (length ss) 2). lia. }
    apply list_eq. intros j.
    destruct (decide (j < length ss)) as [Hj|Hj].
    + rewrite reverse_lookup by done. rewrite Hl by done.
      case_decide; f_equal; lia.
    + rewrite !lookup_ge_None_2; [done| |]; rewrite ?length_reverse; lia.
Qed.

Lemma convertToPath_spec domain :
  convertToPath domain = "/" +:+ Join (reverse (Split domain ".")) "/".
Proof. unfold convertToPath. by rewrite reverse_loop_reverse. Qed.

Lemma convertToPath_inj d1 d2 :
  has_byte "/" d1 = false → has_byte "/" d2 = false →
  convertToPath d1 = convertToPath d2 → d1 = d2.
Proof.
  intros H1 H2. rewrite !convertToPath_spec. intros Heq.
  apply (string_app_inv_head "/") in Heq.
  apply (f_equal (λ s, Split s "/")) in Heq.
  rewrite !Split_Join in Heq.
  - apply (Split_inj _ _ "."). by apply (inj reverse).
  - intros E. apply (f_equal length) in E. rewrite length_reverse in E.
    pose proof (Split_nonempty d2 "."). by destruct (Split d2 "."). 
  - apply Forall_reverse. by apply Split_has_byte.
  - intros E. apply (f_equal length) in E. rewrite length_reverse in E.
    pose proof (Split_nonempty d1 "."). by destruct (Split d1 ".").
  - apply Forall_reverse. by apply Split_has_byte.
Qed.
End path_encoder.

Section path_claims.
Import strings.
Implicit Types (e : BackendOperator).

Lemma formatKey_inj d1 d2 :
  has_byte "_" d1 = false → has_byte "_" d2 = false →
  formatKey d1 = formatKey d2 → d1 = d2.
Proof.
  intros H1 H2 Heq. unfold formatKey in Heq.
  rewrite <- (ReplaceAll_back d1 "." "_"), <- (ReplaceAll_back d2 "." "_")
    by done.
  by rewrite Heq.
Qed.

(** C3, as stated, fails: a dot and an underscore at the same place give
    the same token key, and decoding does not give the name back. *)
Lemma C3_counterexample :
  "a.b" ≠ "a_b" ∧
  tokenOriginPath (NewEtcdBackend "/rdns" "lb.example.com") "a.b"
  = tokenOriginPath (NewEtcdBackend "/rdns" "lb.example.com") "a_b" ∧
  decodeTokenPath
    (tokenOriginPath (NewEtcdBackend "/rdns" "lb.example.com") "a_b")
  ≠ "a_b".
Proof. repeat split; [discriminate | discriminate]. Qed.

(** C3, amended: on domain names without an underscore the token path
    (fixed root, then the name with every dot replaced by an underscore, no
    reversal) sends distinct names to distinct keys, and substituting dots
    back for underscores after the fixed root gives the name back. *)
Theorem C3_tokenOriginPath_injective e d1 d2 :
  has_byte "_" d1 = false → has_byte "_" d2 = false →
  tokenOriginPath e d1 = "/token_origin/" +:+ ReplaceAll d1 "." "_" ∧
  (d1 ≠ d2 → tokenOriginPath e d1 ≠ tokenOriginPath e d2) ∧
  decodeTokenPath (tokenOriginPath e d1) = d1.
Proof.
  intros H1 H2. split; [done|]. split.
  - intros Hne Heq. apply Hne. unfold tokenOriginPath in Heq.
    apply string_app_inv_head in Heq.
    apply (string_app_inv_head "/") in Heq.
    by apply formatKey_inj.
  - unfold decodeTokenPath, tokenOriginPath.
    change (tokenOriginPath_const +:+ "/" +:+ formatKey d1)
      with ((tokenOriginPath_const +:+ "/") +:+ formatKey d1).
    rewrite substring_drop_prefix. by apply ReplaceAll_back.
Qed.

Lemma C3_tokenOriginPath_injective_witness :
  tokenOriginPath (NewEtcdBackend "/rdns" "lb.example.com")
    "x1.lb.example.com"
  = "/token_origin/" +:+ ReplaceAll "x1.lb.example.com" "." "_" ∧
  ("x1.lb.example.com" ≠ "x2.lb.example.com" →
   tokenOriginPath (NewEtcdBackend "/rdns" "lb.example.com")
     "x1.lb.example.com"
   ≠ tokenOriginPath (NewEtcdBackend "/rdns" "lb.example.com")
       "x2.lb.example.com") ∧
  decodeTokenPath
    (tokenOriginPath (NewEtcdBackend "/rdns" "lb.example.com")
       "x1.lb.example.com")
  = "x1.lb.example.com".
Proof.
  apply (C3_tokenOriginPath_injective
           (NewEtcdBackend "/rdns" "lb.example.com")
           "x1.lb.example.com" "x2.lb.example.com"); reflexivity.
Defined.

(** C6, as stated, fails: a label holding a slash collides with a longer
    label sequence. *)
Lemma C6_counterexample :
  Split "a/b" "." ≠ Split "b.a" "." ∧
  path (NewEtcdBackend "/rdns" "lb.example.com") "a/b"
  = path (NewEtcdBackend "/rdns" "lb.example.com") "b.a".
Proof. split; [discriminate | reflexivity]. Qed.

(** C6, amended: for every domain name the storage path is the backend
    prefix followed by the name's dot-separated labels in reversed order,
    joined with slashes; on names without a slash the encoding is injective
    on label sequences. *)
Theorem C6_path_reversed_injective e d1 d2 :
  path e d1 = prePath e +:+ "/" +:+ Join (reverse (Split d1 ".")) "/" ∧
  (has_byte "/" d1 = false → has_byte "/" d2 = false →
   Split d1 "." ≠ Split d2 "." → path e d1 ≠ path e d2).
Proof.
  unfold path. split.
  - by rewrite convertToPath_spec.
  - intros H1 H2 Hne Heq. apply Hne. apply string_app_inv_head in Heq.
    by rewrite (convertToPath_inj d1 d2).
Qed.

Lemma C6_path_reversed_injective_witness :
  path (NewEtcdBackend "/rdns" "lb.example.com") "x1.lb.rancher.cloud"
  = "/rdns" +:+ "/"
    +:+ Join (reverse (Split "x1.lb.rancher.cloud" ".")) "/" ∧
  path (NewEtcdBackend "/rdns" "lb.example.com") "x1.lb.rancher.cloud"
  = "/rdns/cloud/rancher/lb/x1" ∧
  path (NewEtcdBackend "/rdns" "lb.example.com") "x1.lb.rancher.cloud"
  ≠ path (NewEtcdBackend "/rdns" "lb.example.com") "x2.lb.rancher.cloud".
Proof.
  split; [|split].
  - apply (C6_path_reversed_injective
             (NewEtcdBackend "/rdns" "lb.example.com")
             "x1.lb.rancher.cloud" "x2.lb.rancher.cloud").
  - reflexivity.
  - apply (C6_path_reversed_injective
             (NewEtcdBackend "/rdns" "lb.example.com")
             "x1.lb.rancher.cloud" "x2.lb.rancher.cloud");
      [reflexivity | reflexivity | discriminate].
Defined.
End path_claims.

(** ** Running the monad *)

Section monad_facts.
Context {S : Type}.

Lemma bind_ok {E A B} (m : M S E A) (k : A → M S E B) w a w1 :
  m w = (inr a, w1) → bind m k w = k a w1.
Proof. unfold bind. by intros ->. Qed.

Lemma bind_err {E A B} (m : M S E A) (k : A → M S E B) w x w1 :
  m w = (inl x, w1) → bind m k w = (inl x, w1).
Proof. unfold bind. by intros ->. Qed.

Lemma bind_inv {E A B} (m : M S E A) (k : A → M S E B) w r w' :
  bind m k w = (r, w') →
  (∃ x, m w = (inl x, w') ∧ r = inl x) ∨
  (∃ a w1, m w = (inr a, w1) ∧ k a w1 = (r, w')).
Proof.
  unfold bind. destruct (m w) as [[x|a] w1]; intros Heq.
  - left. exists x. by inversion Heq.
  - right. by exists a, w1.
Qed.

(** *** Frame: what a computation leaves of the caller's options *)

Definition keeps {X E A} (f : DomainOptions → X) (m : M S E A) : Prop :=
  ∀ w, f (dopts (m w).2) = f (dopts w).

Lemma keeps_ret {X E A} (f : DomainOptions → X) (a : A) :
  keeps f (ret (E := E) a).
Proof. by intros w. Qed.

Lemma keeps_pure {X E A} (f : DomainOptions → X) (r : E + A) :
  keeps f (λ w : World S, (r, w)).
Proof. by intros w. Qed.

Lemma keeps_bind {X E A B} (f : DomainOptions → X)
    (m : M S E A) (k : A → M S E B) :
  keeps f m → (∀ a, keeps f (k a)) → keeps f (bind m k).
Proof.
  intros Hm Hk w. unfold bind. specialize (Hm w).
  destruct (m w) as [[x|a] w1]; simpl in *; [done|].
  by rewrite Hk.
Qed.

Lemma keeps_mapErr {X E E' A} (f : DomainOptions → X)
    (g : E → E') (m : M S E A) :
  keeps f m → keeps f (mapErr g m).
Proof.
  intros Hm w. unfold mapErr. specialize (Hm w).
  by destruct (m w) as [[x|a] w1].
Qed.

Lemma keeps_attempt {X E E' A} (f : DomainOptions → X) (m : M S E A) :
  keeps f m → keeps f (attempt (E' := E') m).
Proof.
  intros Hm w. unfold attempt. specialize (Hm w).
  by destruct (m w) as [r w1].
Qed.

Lemma keeps_forM {X E A} (f : DomainOptions → X)
    (l : list A) (body : A → M S E unit) :
  (∀ x, keeps f (body x)) → keeps f (forM_ l body).
Proof.
  intros Hb. induction l as [|x l IH]; simpl.
  - apply keeps_ret.
  - apply keeps_bind; [apply Hb | by intros _].
Qed.

Lemma keeps_readDopts {X E} (f : DomainOptions → X) :
  keeps f (readDopts (E := E)).
Proof. by intros w. Qed.

Lemma keeps_setFqdn {E} fqdn :
  keeps (λ o, (o_Hosts o, o_Text o)) (setFqdn (S := S) (E := E) fqdn).
Proof. by intros w. Qed.

Context `{!KeysAPI S}.

Lemma keeps_kapi_Get {X} (f : DomainOptions → X) key opts :
  keeps f (kapi_Get key opts).
Proof. intros w. unfold kapi_Get. by destruct (kGet _ _ _). Qed.

Lemma keeps_kapi_Set {X} (f : DomainOptions → X) key value opts :
  keeps f (kapi_Set key value opts).
Proof. intros w. unfold kapi_Set. by destruct (kSet _ _ _ _). Qed.

Lemma keeps_kapi_Delete {X} (f : DomainOptions → X) key opts :
  keeps f (kapi_Delete key opts).
Proof. intros w. unfold kapi_Delete. by destruct (kDelete _ _ _). Qed.

Context `{!Runtime}.

Lemma keeps_generateSlug {X E} (f : DomainOptions → X) :
  keeps f (generateSlug (E := E)).
Proof. by intros w. Qed.

Lemma keeps_generateTokenOrigin {X E} (f : DomainOptions → X) :
  keeps f (generateTokenOrigin (E := E)).
Proof. by intros w. Qed.
End monad_facts.

Create HintDb keeps discriminated.
#[export] Hint Resolve keeps_ret keeps_pure keeps_readDopts keeps_kapi_Get
  keeps_kapi_Set keeps_kapi_Delete keeps_generateSlug
  keeps_generateTokenOrigin keeps_setFqdn : keeps.

(** Walks down a computation built from the combinators, leaving the leaves
    to the hint database. *)
Ltac keeps_step :=
  lazymatch goal with
  | |- keeps _ (bind _ _) => apply keeps_bind; [|intros ?]
  | |- keeps _ (mapErr _ _) => apply keeps_mapErr
  | |- keeps _ (attempt _) => apply keeps_attempt
  | |- keeps _ (forM_ _ _) => apply keeps_forM; intros ?
  | |- keeps _ (match ?r with inl _ => _ | inr _ => _ end) => destruct r
  | |- keeps _ (if ?b then _ else _) => destruct b
  | |- keeps _ (let _ := _ in _) => cbv zeta
  end.
Ltac keeps_tac := repeat keeps_step; eauto with keeps.

Section frame.
Context {S : Type} `{!KeysAPI S} `{!Runtime}.
Context {X : Type} (f : DomainOptions → X).
Implicit Types (e : BackendOperator).

Lemma keeps_setTokenOrigin e exist : keeps f (setTokenOrigin e exist).
Proof. unfold setTokenOrigin. keeps_tac. Qed.

Lemma keeps_lookupHosts path : keeps f (lookupHosts path).
Proof. unfold lookupHosts. keeps_tac. Qed.

Lemma keeps_set_hosts path d cur new : keeps f (set_hosts path d cur new).
Proof. unfold set_hosts. keeps_tac. Qed.

Lemma keeps_set e path exist : keeps f (set e path exist).
Proof.
  unfold set. pose proof keeps_setTokenOrigin. pose proof keeps_lookupHosts.
  pose proof keeps_set_hosts. keeps_tac.
Qed.

Lemma keeps_setText e path exist : keeps f (setText e path exist).
Proof. unfold setText. keeps_tac. Qed.

Lemma keeps_refresh_acme e d keys : keeps f (refresh_acme e d keys).
Proof. unfold refresh_acme. keeps_tac. Qed.

Lemma keeps_refreshExpiration e path : keeps f (refreshExpiration e path).
Proof.
  unfold refreshExpiration. pose proof keeps_setTokenOrigin.
  pose proof keeps_lookupHosts. pose proof keeps_refresh_acme. keeps_tac.
Qed.

Lemma keeps_Get e : keeps f (Get e).
Proof. unfold Get. keeps_tac. Qed.

Lemma keeps_Update e : keeps f (Update e).
Proof. unfold Update. pose proof keeps_set. keeps_tac. Qed.

Lemma keeps_Renew e : keeps f (Renew e).
Proof. unfold Renew. pose proof keeps_refreshExpiration. keeps_tac. Qed.

Lemma keeps_Delete e : keeps f (Delete e).
Proof. unfold Delete. keeps_tac. Qed.

Lemma keeps_CreateText e : keeps f (CreateText e).
Proof. unfold CreateText. pose proof keeps_setText. keeps_tac. Qed.

Lemma keeps_GetText e : keeps f (GetText e).
Proof. unfold GetText. keeps_tac. Qed.

Lemma keeps_UpdateText e : keeps f (UpdateText e).
Proof. unfold UpdateText. pose proof keeps_setText. keeps_tac. Qed.

Lemma keeps_DeleteText e : keeps f (DeleteText e).
Proof. unfold DeleteText. keeps_tac. Qed.

Lemma keeps_GetTokenOrigin e fqdn : keeps f (GetTokenOrigin e fqdn).
Proof. unfold GetTokenOrigin. keeps_tac. Qed.
End frame.

(** ** The caller's options object (C9) *)

Section options_frame.
Context {S : Type} `{!KeysAPI S} `{!Runtime}.
Implicit Types (e : BackendOperator) (w : World S).

Lemma keeps_Create_loop e n p :
  keeps (λ o, (o_Hosts o, o_Text o)) (Create_loop e n p).
Proof.
  revert p. induction n as [|n IH]; intros p; simpl; keeps_tac.
Qed.

Lemma keeps_Create e : keeps (λ o, (o_Hosts o, o_Text o)) (Create e).
Proof.
  unfold Create. pose proof (keeps_Create_loop e).
  pose proof (keeps_set (λ o, (o_Hosts o, o_Text o)) e).
  pose proof (keeps_Get (λ o, (o_Hosts o, o_Text o)) e). keeps_tac.
Qed.

End options_frame.

(** C9, as stated, fails: [Create] writes the generated name into the
    caller's options. *)
Lemma C9_counterexample :
  dopts
    (Create (R := fixedRuntime (λ _, "aaaaaa") (λ _, "TOKEN"))
       (NewEtcdBackend "/rdns" "lb.example.com")
       (mkWorld MemStore.empty (mkDomainOptions "" ["1.2.3.4"] "") 0 [])).2
  = mkDomainOptions "aaaaaa.lb.example.com" ["1.2.3.4"] "" ∧
  mkDomainOptions "aaaaaa.lb.example.com" ["1.2.3.4"] ""
  ≠ mkDomainOptions "" ["1.2.3.4"] "".
Proof. split; [by vm_compute | discriminate]. Qed.

(** ** Renew without an ACME namespace (C10) *)

Section renew_acme_missing.
Context {S : Type} {K : KeysAPI S} {R : Runtime}.
Implicit Types (e : BackendOperator) (w : World S).

Lemma setTokenOrigin_dopts e exist w :
  dopts (setTokenOrigin e exist w).2 = dopts w.
Proof. apply (keeps_setTokenOrigin id). Qed.

Lemma kapi_Get_run key opts w :
  kapi_Get key opts w
  = ((kGet (store w) key opts).1,
     mkWorld (kGet (store w) key opts).2 (dopts w) (draws w)
       (trace w ++ [EvGet key opts (kGet (store w) key opts).1])).
Proof. unfold kapi_Get. by destruct (kGet _ _ _). Qed.

Lemma kapi_Set_run key value opts w :
  kapi_Set key value opts w
  = ((kSet (store w) key value opts).1,
     mkWorld (kSet (store w) key value opts).2 (dopts w) (draws w)
       (trace w ++ [EvSet key value opts (kSet (store w) key value opts).1])).
Proof. unfold kapi_Set. by destruct (kSet _ _ _ _). Qed.

Lemma kapi_Delete_run key opts w :
  kapi_Delete key opts w
  = ((kDelete (store w) key opts).1,
     mkWorld (kDelete (store w) key opts).2 (dopts w) (draws w)
       (trace w ++ [EvDelete key opts (kDelete (store w) key opts).1])).
Proof. unfold kapi_Delete. by destruct (kDelete _ _ _). Qed.

(** C10: when the token, the directory and the hosts of a domain have been
    refreshed and read, and the listing of the ACME namespace then fails
    (as it does when that directory does not exist), Renew returns that
    error, whatever ACME entries the domain has; the world it leaves is the
    one reached by the refreshes, with the failed listing as the last store
    call: nothing is undone. *)
Theorem C10_Renew_fails_without_acme_namespace
    e w w1 resp w2 hosts w3 err s4 :
  setTokenOrigin e true w = (inr tt, w1) →
  kapi_Set (path e (o_Fqdn (dopts w))) ""
    (Some (mkSetOptions PrevExist (duration e) true)) w1 = (inr resp, w2) →
  lookupHosts (path e (o_Fqdn (dopts w))) w2 = (inr hosts, w3) →
  kGet (store w3) (prePath e +:+ "/_txt/_acme-challenge")
    (Some (mkGetOptions true true)) = (inl err, s4) →
  Renew e w
  = (inl (mkDomain (o_Fqdn (dopts w)) hosts "" (Expiration (RespNode resp)),
          err),
     mkWorld s4 (dopts w) (draws w3)
       (trace w3 ++ [EvGet (prePath e +:+ "/_txt/_acme-challenge")
                       (Some (mkGetOptions true true)) (inl err)])).
Proof.
  intros H1 H2 H3 H4.
  assert (Hd : dopts w3 = dopts w).
  { pose proof (keeps_lookupHosts id (path e (o_Fqdn (dopts w))) w2) as Ha.
    pose proof (keeps_kapi_Set id (path e (o_Fqdn (dopts w))) ""
                  (Some (mkSetOptions PrevExist (duration e) true)) w1) as Hb.
    pose proof (setTokenOrigin_dopts e true w) as Hc.
    rewrite H3 in Ha. rewrite H2 in Hb. rewrite H1 in Hc. simpl in *.
    congruence. }
  unfold Renew, refreshExpiration, bind, mapErr, readDopts.
  rewrite H1, H2, H3, kapi_Get_run, H4. simpl. by rewrite Hd.
Qed.
End renew_acme_missing.

(** ** Which store failures reach the caller (C4) *)

(** The error inside what a method returns early with. *)
Class ErrOf (E : Type) : Type := err_of : E → Error.
#[global] Instance ErrOf_Error : ErrOf Error := λ err, err.
#[global] Instance ErrOf_pair {X} : ErrOf (X * Error) := λ x, x.2.

Definition failed (ev : Event) : option Error :=
  match ev with
  | EvGet _ _ (inl err) | EvSet _ _ _ (inl err) | EvDelete _ _ (inl err) =>
      Some err
  | _ => None
  end.

Definition is_read (ev : Event) : bool :=
  match ev with EvGet _ _ _ => true | _ => false end.

Definition returned {E A} `{!ErrOf E} (r : E + A) (err : Error) : Prop :=
  ∃ x, r = inl x ∧ err_of x = err.

Section failures.
Context {S : Type}.

(** Every failed store call of [m] is what [m] returns. *)
Definition propagates {E A} `{!ErrOf E} (m : M S E A) : Prop :=
  ∀ w, ∃ evs, trace (m w).2 = trace w ++ evs ∧
    ∀ ev err, ev ∈ evs → failed ev = Some err → returned (m w).1 err.

(** [m] makes at most [n] store calls, all of them reads. *)
Definition probes {E A} (n : nat) (m : M S E A) : Prop :=
  ∀ w, ∃ evs, trace (m w).2 = trace w ++ evs ∧
    length evs <= n ∧ Forall (λ ev, is_read ev = true) evs.

(** [m] opens with at most [n] reads; every store call after them that
    fails is what [m] returns.  Nothing is said about the opening reads. *)
Definition returns_after {E A} `{!ErrOf E} (n : nat) (m : M S E A) : Prop :=
  ∀ w, ∃ heads rest, trace (m w).2 = trace w ++ heads ++ rest ∧
    length heads <= n ∧ Forall (λ ev, is_read ev = true) heads ∧
    ∀ ev err, ev ∈ rest → failed ev = Some err → returned (m w).1 err.

Lemma propagates_pure {E A} `{!ErrOf E} (r : E + A) :
  propagates (λ w : World S, (r, w)).
Proof.
  intros w. exists []. split; [by rewrite app_nil_r|].
  intros ev err Hin. by apply elem_of_nil in Hin.
Qed.

Lemma propagates_ret {E A} `{!ErrOf E} (a : A) : propagates (ret (E := E) a).
Proof. apply propagates_pure. Qed.

Lemma propagates_bind {E A B} `{!ErrOf E} (m : M S E A) (k : A → M S E B) :
  propagates m → (∀ a, propagates (k a)) → propagates (bind m k).
Proof.
  intros Hm Hk w. unfold bind. destruct (Hm w) as (evs1 & Ht1 & Hp1).
  destruct (m w) as [[x|a] w1]; simpl in *.
  - exists evs1. split; [done|]. intros ev err Hin Hf.
    destruct (Hp1 ev err Hin Hf) as (y & [= <-] & Hy). by exists x.
  - destruct (Hk a w1) as (evs2 & Ht2 & Hp2).
    exists (evs1 ++ evs2). split; [by rewrite Ht2, Ht1, app_assoc|].
    intros ev err [Hin|Hin]%elem_of_app Hf; [|by eauto].
    by destruct (Hp1 ev err Hin Hf) as (y & [=] & _).
Qed.

Lemma propagates_mapErr {E E' A} `{!ErrOf E} `{!ErrOf E'}
    (g : E → E') (m : M S E A) :
  (∀ x, err_of (g x) = err_of x) → propagates m → propagates (mapErr g m).
Proof.
  intros Hg Hm w. unfold mapErr. destruct (Hm w) as (evs & Ht & Hp).
  destruct (m w) as [[x|a] w1]; simpl in *; exists evs; (split; [done|]);
    intros ev err Hin Hf; destruct (Hp ev err Hin Hf) as (y & [=] & Hy).
  subst y. exists (g x). by rewrite Hg.
Qed.

Lemma propagates_forM {E A} `{!ErrOf E} (l : list A) (body : A → M S E unit) :
  (∀ x, propagates (body x)) → propagates (forM_ l body).
Proof.
  intros Hb. induction l as [|x l IH]; simpl.
  - apply propagates_ret.
  - apply propagates_bind; [apply Hb | by intros _].
Qed.

Lemma propagates_readDopts {E} `{!ErrOf E} : propagates (readDopts (E := E)).
Proof. intros w. apply (propagates_pure (inr (dopts w)) w). Qed.

Lemma probes_pure {E A} (r : E + A) n : probes n (λ w : World S, (r, w)).
Proof.
  intros w. exists []. split; [by rewrite app_nil_r|].
  split; [simpl; lia | constructor].
Qed.

Lemma probes_ret {E A} (a : A) n : probes n (ret (S := S) (E := E) a).
Proof. apply probes_pure. Qed.

Lemma probes_readDopts {E} n : probes n (readDopts (S := S) (E := E)).
Proof. intros w. apply (probes_pure (inr (dopts w)) n w). Qed.

Lemma probes_setFqdn {E} fqdn n : probes n (setFqdn (S := S) (E := E) fqdn).
Proof.
  intros w. exists []. split; [by rewrite app_nil_r|].
  split; [simpl; lia | constructor].
Qed.

Lemma probes_weaken {E A} n n' (m : M S E A) :
  n <= n' → probes n m → probes n' m.
Proof.
  intros Hle Hm w. destruct (Hm w) as (evs & Ht & Hl & Hr).
  exists evs. repeat split; [done | lia | done].
Qed.

Lemma probes_bind {E A B} n1 n2 (m : M S E A) (k : A → M S E B) :
  probes n1 m → (∀ a, probes n2 (k a)) → probes (n1 + n2) (bind m k).
Proof.
  intros Hm Hk w. unfold bind. destruct (Hm w) as (evs1 & Ht1 & Hl1 & Hr1).
  destruct (m w) as [[x|a] w1]; simpl in *.
  - exists evs1. repeat split; [done | lia | done].
  - destruct (Hk a w1) as (evs2 & Ht2 & Hl2 & Hr2).
    exists (evs1 ++ evs2). split; [by rewrite Ht2, Ht1, app_assoc|].
    split; [rewrite length_app; lia | by apply Forall_app].
Qed.

Lemma probes_attempt {E E' A} n (m : M S E A) :
  probes n m → probes n (attempt (E' := E') m).
Proof.
  intros Hm w. unfold attempt. specialize (Hm w).
  by destruct (m w) as [r w1].
Qed.

Lemma returns_after_of_propagates {E A} `{!ErrOf E} n (m : M S E A) :
  propagates m → returns_after n m.
Proof.
  intros Hm w. destruct (Hm w) as (evs & Ht & Hp). exists [], evs.
  repeat split; [done | simpl; lia | constructor | done].
Qed.

Lemma returns_after_weaken {E A} `{!ErrOf E} n n' (m : M S E A) :
  n <= n' → returns_after n m → returns_after n' m.
Proof.
  intros Hle Hm w. destruct (Hm w) as (hs & rest & Ht & Hl & Hr & Hp).
  exists hs, rest. repeat split; [done | lia | done | done].
Qed.

Lemma returns_after_bind_l {E A B} `{!ErrOf E} n1 n2
    (m : M S E A) (k : A → M S E B) :
  probes n1 m → (∀ a, returns_after n2 (k a)) →
  returns_after (n1 + n2) (bind m k).
Proof.
  intros Hm Hk w. unfold bind. destruct (Hm w) as (evs1 & Ht1 & Hl1 & Hr1).
  destruct (m w) as [[x|a] w1]; simpl in *.
  - exists evs1, []. rewrite app_nil_r.
    repeat split; [done | lia | done |].
    intros ev err Hin. by apply elem_of_nil in Hin.
  - destruct (Hk a w1) as (hs & rest & Ht2 & Hl2 & Hr2 & Hp2).
    exists (evs1 ++ hs), rest.
    split; [by rewrite Ht2, Ht1, <- !app_assoc|].
    split; [rewrite length_app; lia|]. split; [by apply Forall_app | done].
Qed.

Lemma returns_after_bind_r {E A B} `{!ErrOf E} n
    (m : M S E A) (k : A → M S E B) :
  returns_after n m → (∀ a, propagates (k a)) → returns_after n (bind m k).
Proof.
  intros Hm Hk w. unfold bind.
  destruct (Hm w) as (hs & rest1 & Ht1 & Hl1 & Hr1 & Hp1).
  destruct (m w) as [[x|a] w1]; simpl in *.
  - exists hs, rest1. repeat split; [done | done | done |].
    intros ev err Hin Hf.
    destruct (Hp1 ev err Hin Hf) as (y & [= <-] & Hy). by exists x.
  - destruct (Hk a w1) as (evs2 & Ht2 & Hp2).
    exists hs, (rest1 ++ evs2).
    split; [by rewrite Ht2, Ht1, <- !app_assoc|].
    repeat split; [done | done |].
    intros ev err [Hin|Hin]%elem_of_app Hf; [|by eauto].
    by destruct (Hp1 ev err Hin Hf) as (y & [=] & _).
Qed.

Lemma returns_after_mapErr {E E' A} `{!ErrOf E} `{!ErrOf E'} n
    (g : E → E') (m : M S E A) :
  (∀ x, err_of (g x) = err_of x) → returns_after n m →
  returns_after n (mapErr g m).
Proof.
  intros Hg Hm w. unfold mapErr.
  destruct (Hm w) as (hs & rest & Ht & Hl & Hr & Hp).
  destruct (m w) as [[x|a] w1]; simpl in *; exists hs, rest;
    (repeat split; [done | done | done |]);
    intros ev err Hin Hf; destruct (Hp ev err Hin Hf) as (y & [=] & Hy).
  subst y. exists (g x). by rewrite Hg.
Qed.

Context {K : KeysAPI S}.

Lemma propagates_kapi_Get key opts : propagates (kapi_Get key opts).
Proof.
  intros w. rewrite kapi_Get_run. simpl. eexists. split; [done|].
  intros ev err ->%list_elem_of_singleton Hf. simpl in Hf.
  destruct (kGet _ _ _).1 as [x|]; [|done]. exists x. by inversion Hf.
Qed.

Lemma propagates_kapi_Set key value opts :
  propagates (kapi_Set key value opts).
Proof.
  intros w. rewrite kapi_Set_run. simpl. eexists. split; [done|].
  intros ev err ->%list_elem_of_singleton Hf. simpl in Hf.
  destruct (kSet _ _ _ _).1 as [x|]; [|done]. exists x. by inversion Hf.
Qed.

Lemma propagates_kapi_Delete key opts : propagates (kapi_Delete key opts).
Proof.
  intros w. rewrite kapi_Delete_run. simpl. eexists. split; [done|].
  intros ev err ->%list_elem_of_singleton Hf. simpl in Hf.
  destruct (kDelete _ _ _).1 as [x|]; [|done]. exists x. by inversion Hf.
Qed.

Lemma probes_kapi_Get key opts : probes 1 (kapi_Get key opts).
Proof.
  intros w. rewrite kapi_Get_run. simpl. eexists. split; [done|].
  split; [simpl; lia | by repeat constructor].
Qed.

Context {R : Runtime}.

Lemma propagates_generateTokenOrigin {E} `{!ErrOf E} :
  propagates (generateTokenOrigin (E := E)).
Proof.
  intros w. exists []. split; [by rewrite app_nil_r|].
  intros ev err Hin. by apply elem_of_nil in Hin.
Qed.

Lemma probes_generateSlug {E} n : probes n (generateSlug (E := E)).
Proof.
  intros w. exists []. split; [by rewrite app_nil_r|].
  split; [simpl; lia | constructor].
Qed.
End failures.

Ltac propagates_step :=
  lazymatch goal with
  | |- propagates (bind _ _) => apply propagates_bind; [|intros ?]
  | |- propagates (mapErr _ _) =>
      apply propagates_mapErr; [intros ?; reflexivity|]
  | |- propagates (forM_ _ _) => apply propagates_forM; intros ?
  | |- propagates (match ?r with inl _ => _ | inr _ => _ end) => destruct r
  | |- propagates (if ?b then _ else _) => destruct b
  | |- propagates (let _ := _ in _) => cbv zeta
  end.
Create HintDb propagates discriminated.
#[export] Hint Resolve propagates_ret propagates_pure propagates_readDopts
  propagates_kapi_Get propagates_kapi_Set propagates_kapi_Delete
  propagates_generateTokenOrigin : propagates.
Ltac propagates_tac := repeat propagates_step; eauto with propagates.

Section failures_backend.
Context {S : Type} {K : KeysAPI S} {R : Runtime}.
Implicit Types (e : BackendOperator) (w : World S).

Lemma propagates_lookupHosts path : propagates (lookupHosts path).
Proof. unfold lookupHosts. propagates_tac. Qed.

Lemma propagates_set_hosts path d cur new :
  propagates (set_hosts path d cur new).
Proof. unfold set_hosts. propagates_tac. Qed.

Lemma returns_after_setTokenOrigin e exist :
  returns_after 1 (setTokenOrigin e exist).
Proof.
  unfold setTokenOrigin.
  apply (returns_after_bind_l 0 1); [apply probes_readDopts | intros o].
  apply (returns_after_bind_l 1 0);
    [apply probes_attempt, probes_kapi_Get | intros r].
  apply returns_after_of_propagates. propagates_tac.
Qed.

Lemma returns_after_set e path exist : returns_after 1 (set e path exist).
Proof.
  unfold set. apply returns_after_bind_r.
  - apply returns_after_mapErr; [done | apply returns_after_setTokenOrigin].
  - intros _. pose proof propagates_lookupHosts.
    pose proof propagates_set_hosts. propagates_tac.
Qed.

Lemma propagates_setText e path exist : propagates (setText e path exist).
Proof. unfold setText. propagates_tac. Qed.

Lemma propagates_refresh_acme e d keys : propagates (refresh_acme e d keys).
Proof. unfold refresh_acme. propagates_tac. Qed.

Lemma returns_after_refreshExpiration e path :
  returns_after 1 (refreshExpiration e path).
Proof.
  unfold refreshExpiration. apply returns_after_bind_r.
  - apply returns_after_mapErr; [done | apply returns_after_setTokenOrigin].
  - intros _. pose proof propagates_lookupHosts.
    pose proof propagates_refresh_acme. propagates_tac.
Qed.

Lemma propagates_Get e : propagates (Get e).
Proof. unfold Get. propagates_tac. Qed.

Lemma probes_Create_loop e n : ∀ p, probes n (Create_loop e n p).
Proof.
  induction n as [|n IH]; intros p; simpl; [apply probes_ret|].
  apply (probes_bind 0 (Datatypes.S n)); [apply probes_generateSlug|].
  intros slug.
  apply (probes_bind 1 n); [apply probes_attempt, probes_kapi_Get|].
  intros [err|resp]; [|apply IH].
  destruct (IsKeyNotFound err); [|apply IH].
  apply (probes_bind 0 n); [apply probes_setFqdn | intros _; apply probes_ret].
Qed.

Lemma returns_after_Create e : returns_after (maxSlugHashTimes + 1) (Create e).
Proof.
  unfold Create. apply returns_after_bind_l; [apply probes_Create_loop|].
  intros p. apply returns_after_bind_r; [apply returns_after_set|].
  intros _. apply propagates_Get.
Qed.

Lemma returns_after_Update e : returns_after 2 (Update e).
Proof.
  unfold Update.
  apply (returns_after_bind_l 0 2); [apply probes_readDopts | intros o].
  apply (returns_after_bind_l 1 1);
    [apply probes_attempt, probes_kapi_Get | intros r].
  apply returns_after_set.
Qed.

Lemma returns_after_Renew e : returns_after 1 (Renew e).
Proof.
  unfold Renew.
  apply (returns_after_bind_l 0 1); [apply probes_readDopts | intros o].
  apply returns_after_refreshExpiration.
Qed.

Lemma propagates_Delete e : propagates (Delete e).
Proof. unfold Delete. propagates_tac. Qed.

Lemma returns_after_CreateText e : returns_after 1 (CreateText e).
Proof.
  unfold CreateText.
  apply (returns_after_bind_l 0 1); [apply probes_readDopts | intros o].
  apply (returns_after_bind_l 1 0);
    [apply probes_attempt, probes_kapi_Get | intros r].
  apply returns_after_of_propagates, propagates_setText.
Qed.

Lemma propagates_GetText e : propagates (GetText e).
Proof. unfold GetText. propagates_tac. Qed.

Lemma returns_after_UpdateText e : returns_after 1 (UpdateText e).
Proof.
  unfold UpdateText.
  apply (returns_after_bind_l 0 1); [apply probes_readDopts | intros o].
  apply (returns_after_bind_l 1 0);
    [apply probes_attempt, probes_kapi_Get | intros r].
  apply returns_after_of_propagates, propagates_setText.
Qed.

Lemma propagates_DeleteText e : propagates (DeleteText e).
Proof. unfold DeleteText. propagates_tac. Qed.

Lemma propagates_GetTokenOrigin e fqdn : propagates (GetTokenOrigin e fqdn).
Proof. unfold GetTokenOrigin. propagates_tac. Qed.

(** What one call of [setTokenOrigin] does: a read of the token path, then
    a write of it that carries the value read, or a fresh random string when
    the read gave no response; the outcome is the outcome of the write. *)
Lemma setTokenOrigin_run e (exist : bool) w :
  let tp := tokenOriginPath e (o_Fqdn (dopts w)) in
  let opts := Some (mkSetOptions (if exist then PrevExist else PrevIgnore)
                      (duration e) false) in
  let rd := kGet (store w) tp None in
  let tok := match rd.1 with
             | inr resp => Value (RespNode resp)
             | inl _ => RandStringWithAll tokenOriginLength (draws w)
             end in
  let wr := kSet rd.2 tp tok opts in
  setTokenOrigin e exist w
  = (match wr.1 with inl err => inl err | inr _ => inr tt end,
     mkWorld wr.2 (dopts w)
       (match rd.1 with
        | inr _ => draws w
        | inl _ => Datatypes.S (draws w)
        end)
       (trace w ++ [EvGet tp None rd.1; EvSet tp tok opts wr.1])).
Proof.
  unfold setTokenOrigin, bind, readDopts, attempt.
  rewrite kapi_Get_run. simpl.
  destruct (kGet _ _ _) as [[err|resp] s1]; simpl;
    rewrite kapi_Set_run; simpl;
    destruct (kSet _ _ _ _) as [[err'|resp'] s2]; simpl;
    by rewrite <- app_assoc.
Qed.

Lemma setTokenOrigin_trace e (exist : bool) w :
  dopts (setTokenOrigin e exist w).2 = dopts w ∧
  ∃ rd wr, trace (setTokenOrigin e exist w).2 = trace w ++ [rd; wr].
Proof.
  pose proof (setTokenOrigin_run e exist w) as Hrun. cbv zeta in Hrun.
  rewrite Hrun. simpl. split; [done|]. by eexists _, _.
Qed.

Lemma kapi_Set_trace key value opts w :
  dopts (kapi_Set key value opts w).2 = dopts w ∧
  trace (kapi_Set key value opts w).2
  = trace w ++ [EvSet key value opts (kapi_Set key value opts w).1].
Proof. by rewrite kapi_Set_run. Qed.

Lemma kapi_Get_trace key opts w :
  dopts (kapi_Get key opts w).2 = dopts w ∧
  trace (kapi_Get key opts w).2
  = trace w ++ [EvGet key opts (kapi_Get key opts w).1].
Proof. by rewrite kapi_Get_run. Qed.
End failures_backend.

#[export] Hint Resolve propagates_lookupHosts propagates_set_hosts
  propagates_setText propagates_refresh_acme propagates_Get : propagates.

(** The slug loop never fails: whatever the probes answer, it hands a path
    to [set]. *)
Lemma Create_loop_total {S : Type} {K : KeysAPI S} {R : Runtime}
    (e : BackendOperator) n : ∀ p (w : World S),
  ∃ p', (Create_loop e n p w).1 = inr p'.
Proof.
  induction n as [|n IH]; intros p w; simpl; [by exists p|].
  unfold bind, generateSlug, attempt. rewrite kapi_Get_run. simpl.
  destruct (kGet _ _ _).1 as [err|resp]; [|apply IH].
  destruct (IsKeyNotFound err); [|apply IH]. by eexists.
Qed.

(** C4, as stated, fails: on a store without a token the read of the token
    fails with key-not-found, and [setTokenOrigin] returns no error. *)
Lemma C4_counterexample :
  (setTokenOrigin (R := fixedRuntime (λ _, "aaaaaa") (λ _, "TOKEN"))
     (NewEtcdBackend "/rdns" "lb.example.com") false
     (mkWorld MemStore.empty (mkDomainOptions "x1.lb.example.com" [] "") 0
        [])).1 = inr tt ∧
  head
    (trace
       (setTokenOrigin (R := fixedRuntime (λ _, "aaaaaa") (λ _, "TOKEN"))
          (NewEtcdBackend "/rdns" "lb.example.com") false
          (mkWorld MemStore.empty
             (mkDomainOptions "x1.lb.example.com" [] "") 0 [])).2)
  = Some (EvGet "/token_origin/x1_lb_example_com" None
            (inl (EtcdError ErrorCodeKeyNotFound))).
Proof. split; by vm_compute. Qed.

(** C4, amended: in every method each failed write or delete is returned
    to the caller, and so is each failed read made after the reads the method
    opens with: the token read of [setTokenOrigin] (one in Create, Update
    and Renew), the existence probe of Update, CreateText and UpdateText, and
    the slug probes of Create, at most [maxSlugHashTimes].  [setTokenOrigin]
    returns the error of its write whenever that write fails; it returns no
    error when the write succeeds after a read of the token that succeeded
    or answered key-not-found.  The slug loop of Create never fails. *)
Theorem C4_failures_returned {S : Type} {K : KeysAPI S} {R : Runtime}
    (e : BackendOperator) :
  returns_after (maxSlugHashTimes + 1) (Create e) ∧
  propagates (Get e) ∧
  returns_after 2 (Update e) ∧
  returns_after 1 (Renew e) ∧
  propagates (Delete e) ∧
  returns_after 1 (CreateText e) ∧
  propagates (GetText e) ∧
  returns_after 1 (UpdateText e) ∧
  propagates (DeleteText e) ∧
  (∀ fqdn, propagates (GetTokenOrigin e fqdn)) ∧
  (∀ exist (w : World S), ∃ rd wr,
     trace (setTokenOrigin e exist w).2 = trace w ++ [rd; wr] ∧
     is_read rd = true ∧ is_read wr = false ∧
     (∀ err, failed wr = Some err →
             (setTokenOrigin e exist w).1 = inl err) ∧
     (failed wr = None →
      match failed rd with
      | Some err => IsKeyNotFound err = true
      | None => True
      end →
      (setTokenOrigin e exist w).1 = inr tt)) ∧
  (∀ n p (w : World S), ∃ p', (Create_loop e n p w).1 = inr p').
Proof.
  split; [apply returns_after_Create|]. split; [apply propagates_Get|].
  split; [apply returns_after_Update|]. split; [apply returns_after_Renew|].
  split; [apply propagates_Delete|].
  split; [apply returns_after_CreateText|]. split; [apply propagates_GetText|].
  split; [apply returns_after_UpdateText|].
  split; [apply propagates_DeleteText|].
  split; [apply propagates_GetTokenOrigin|].
  split; [|intros n p w; apply Create_loop_total].
  intros exist w. pose proof (setTokenOrigin_run e exist w) as Hrun.
  cbv zeta in Hrun. rewrite Hrun. simpl. do 2 eexists.
  split; [reflexivity|]. split; [reflexivity|]. split; [reflexivity|].
  simpl. destruct (kSet _ _ _ _).1 as [err'|resp']; split.
  - by intros err [= ->].
  - done.
  - done.
  - done.
Qed.

(** ** The ownership token (C8) *)

Section token.
Context {S : Type} {K : KeysAPI S} {R : Runtime}.
Implicit Types (e : BackendOperator) (w : World S).

Lemma propagates_extends {E A} `{!ErrOf E} (m : M S E A) w :
  propagates m → ∃ evs, trace (m w).2 = trace w ++ evs.
Proof. intros Hm. destruct (Hm w) as (evs & Ht & _). by exists evs. Qed.

Lemma mapErr_world {E E' A} (g : E → E') (m : M S E A) w :
  (mapErr g m w).2 = (m w).2.
Proof. unfold mapErr. by destruct (m w) as [[x|a] w1]. Qed.

Lemma bind_trace_prefix {E A B} `{!ErrOf E}
    (m : M S E A) (k : A → M S E B) w :
  (∀ a, propagates (k a)) →
  ∃ rest, trace (bind m k w).2 = trace (m w).2 ++ rest.
Proof.
  intros Hk. unfold bind. destruct (m w) as [[x|a] w1]; simpl.
  - exists []. by rewrite app_nil_r.
  - by apply propagates_extends.
Qed.

(** [Renew] opens with the token step. *)
Lemma Renew_token_step e w :
  ∃ rest, trace (Renew e w).2 = trace (setTokenOrigin e true w).2 ++ rest.
Proof.
  unfold Renew. rewrite (bind_ok _ _ w (dopts w) w) by done.
  unfold refreshExpiration.
  match goal with |- context [bind ?m ?k w] =>
    destruct (bind_trace_prefix m k w) as [rest Hr] end.
  - intros _. propagates_tac.
  - exists rest. by rewrite Hr, mapErr_world.
Qed.

(** [Update] probes the directory, then takes the token step. *)
Lemma Update_token_step e w :
  ∃ exist rest,
    trace (Update e w).2
    = trace
        (setTokenOrigin e exist
           (kapi_Get (path e (o_Fqdn (dopts w)))
              (Some (mkGetOptions false false)) w).2).2 ++ rest.
Proof.
  unfold Update. rewrite (bind_ok _ _ w (dopts w) w) by done.
  unfold bind at 1, attempt.
  destruct (kapi_Get _ _ w) as [r w0]; simpl.
  match goal with |- context [set e ?p ?b w0] => exists b end.
  unfold set.
  match goal with |- context [bind ?m ?k w0] =>
    destruct (bind_trace_prefix m k w0) as [rest Hr] end.
  - intros _. propagates_tac.
  - exists rest. by rewrite Hr, mapErr_world.
Qed.

(** The token step of every write.  When the read of the domain's token
    path returns a token, [setTokenOrigin] writes that very value back, with
    the backend's TTL, and draws no random string; when the read returns an
    error, whichever it is, a fresh random token is drawn and written.
    Update (after its probe) and Renew open with this step. *)
Lemma setTokenOrigin_token_step e (exist : bool) w :
  let tp := tokenOriginPath e (o_Fqdn (dopts w)) in
  let opts := Some (mkSetOptions (if exist then PrevExist else PrevIgnore)
                      (duration e) false) in
  let w' := (setTokenOrigin e exist w).2 in
  (∀ resp s1, kGet (store w) tp None = (inr resp, s1) →
     draws w' = draws w ∧
     ∃ wr, trace w'
           = trace w ++ [EvGet tp None (inr resp);
                         EvSet tp (Value (RespNode resp)) opts wr]) ∧
  (∀ err s1, kGet (store w) tp None = (inl err, s1) →
     draws w' = Datatypes.S (draws w) ∧
     ∃ wr, trace w'
           = trace w ++ [EvGet tp None (inl err);
                         EvSet tp
                           (RandStringWithAll tokenOriginLength (draws w))
                           opts wr]) ∧
  (draws w' ≠ draws w → ∃ err, (kGet (store w) tp None).1 = inl err) ∧
  (∃ rest, trace (Renew e w).2 = trace (setTokenOrigin e true w).2 ++ rest) ∧
  (∃ exist' rest,
     trace (Update e w).2
     = trace
         (setTokenOrigin e exist'
            (kapi_Get (path e (o_Fqdn (dopts w)))
               (Some (mkGetOptions false false)) w).2).2 ++ rest).
Proof.
  intros tp opts w'. subst w'.
  pose proof (setTokenOrigin_run e exist w) as Hrun. cbv zeta in Hrun.
  fold tp in Hrun. fold opts in Hrun. rewrite Hrun. simpl.
  split; [|split; [|split; [|split]]].
  - intros resp s1 Hget. rewrite Hget. simpl. split; [done|]. by eexists.
  - intros err s1 Hget. rewrite Hget. simpl. split; [done|]. by eexists.
  - intros Hd. destruct (kGet (store w) tp None).1 as [err|resp]; [|done].
    by exists err.
  - apply Renew_token_step.
  - apply Update_token_step.
Qed.
End token.

(** On a store that answers every read, the token drawn by Create is still
    the domain's token after an Update and a Renew, although the generator
    would answer differently by then. *)
Example token_survives_Update_and_Renew :
  let rt := fixedRuntime (λ _, "aaaaaa")
              (λ k, "TOKEN" +:+ String (ascii_of_nat (65 + k)) EmptyString) in
  let e := NewEtcdBackend "/rdns" "lb.example.com" in
  let w1 := (Create (R := rt) e
               (mkWorld MemStore.empty (mkDomainOptions "" ["1.2.3.4"] "") 0
                  [])).2 in
  let w2 := (Update (R := rt) e
               (mkWorld (store w1)
                  (mkDomainOptions "aaaaaa.lb.example.com" ["5.6.7.8"] "")
                  (draws w1) [])).2 in
  let w3 := (Renew (R := rt) e w2).2 in
  (GetTokenOrigin e "aaaaaa.lb.example.com" w1).1 = inr "TOKENB" ∧
  (GetTokenOrigin e "aaaaaa.lb.example.com" w3).1 = inr "TOKENB" ∧
  draws w3 = draws w1.
Proof. by vm_compute. Qed.

(** ** Runs on the in-memory store (C1, C2, C8, C10) *)

Definition demo_backend : BackendOperator :=
  NewEtcdBackend "/rdns" "lb.example.com".

(** Every slug drawn is aaaaaa; the k-th token drawn is TOKEN followed by
    the k-th capital letter. *)
Definition demo_runtime : Runtime :=
  fixedRuntime (λ _, "aaaaaa")
    (λ k, "TOKEN" +:+ String (ascii_of_nat (65 + k)) EmptyString).

(** A caller entering with options [o] on store [s]. *)
Definition enter (s : MemStore.t) (o : DomainOptions) : World MemStore.t :=
  mkWorld s o 0 [].

(** A registration made by Create, whose token is TOKENB. *)
Definition c8_w : World MemStore.t :=
  (Create (R := demo_runtime) demo_backend
     (enter MemStore.empty (mkDomainOptions "" ["1.2.3.4"] ""))).2.

(** An Update of that registration over a connection on which the second
    read, the read of the token, fails. *)
Definition c8_update : (Domain * Error + Domain) * World FlakyStore.t :=
  Update (R := demo_runtime) demo_backend
    (mkWorld (FlakyStore.mk (store c8_w) (Some 1))
       (mkDomainOptions "aaaaaa.lb.example.com" ["1.2.3.4"] "") (draws c8_w)
       []).

(** A Renew of that registration, once the ACME namespace exists, over a
    connection on which the first read, the read of the token, fails. *)
Definition c8_renew : (Domain * Error + Domain) * World FlakyStore.t :=
  let w := (CreateText demo_backend
              (enter (store c8_w)
                 (mkDomainOptions "_acme-challenge.aaaaaa.lb.example.com" []
                    "tok1"))).2 in
  Renew (R := demo_runtime) demo_backend
    (mkWorld (FlakyStore.mk (store w) (Some 0))
       (mkDomainOptions "aaaaaa.lb.example.com" [] "") (draws c8_w) []).

(** C8 on the code: the domain has the token TOKENB.  In an Update whose
    read of the token fails with an error other than key-not-found,
    [setTokenOrigin] draws a fresh token and writes it over the stored one,
    on condition that the key exists; the write succeeds, Update returns
    without error and the domain's token is TOKENC from then on: the value
    of an existing token has changed.  The same happens in a Renew. *)
Theorem C8_token_replaced_after_failed_read :
  (GetTokenOrigin demo_backend "aaaaaa.lb.example.com" c8_w).1
  = inr "TOKENB" ∧
  c8_update.1
  = inr (mkDomain "aaaaaa.lb.example.com" ["1.2.3.4"] "" (Some DefaultTTL)) ∧
  trace c8_update.2 !! 1
  = Some (EvGet "/token_origin/aaaaaa_lb_example_com" None
            (inl TransportError)) ∧
  (∃ resp,
     trace c8_update.2 !! 2
     = Some (EvSet "/token_origin/aaaaaa_lb_example_com" "TOKENC"
               (Some (mkSetOptions PrevExist DefaultTTL false))
               (inr resp))) ∧
  (GetTokenOrigin demo_backend "aaaaaa.lb.example.com" c8_update.2).1
  = inr "TOKENC" ∧
  c8_renew.1
  = inr (mkDomain "aaaaaa.lb.example.com" ["1.2.3.4"] "" (Some DefaultTTL)) ∧
  trace c8_renew.2 !! 0
  = Some (EvGet "/token_origin/aaaaaa_lb_example_com" None
            (inl TransportError)) ∧
  (GetTokenOrigin demo_backend "aaaaaa.lb.example.com" c8_renew.2).1
  = inr "TOKENC".
Proof.
  split; [by vm_compute|]. split; [by vm_compute|].
  split; [by vm_compute|]. split; [eexists; by vm_compute|].
  split; [by vm_compute|]. split; [by vm_compute|].
  split; by vm_compute.
Qed.

Lemma string_length_app (s t : string) :
  String.length (s +:+ t) = String.length s + String.length t.
Proof. induction s as [|a s IH]; simpl; [done|]. by rewrite IH. Qed.

Lemma formatTextValue_neq value : formatTextValue value ≠ value.
Proof.
  intros Heq. apply (f_equal String.length) in Heq.
  unfold formatTextValue in Heq. rewrite !string_length_app in Heq.
  simpl in Heq. lia.
Qed.

(** The world after CreateText of tok123 for an ACME name on the empty
    store. *)
Definition c1_created : (Domain * Error + Domain) * World MemStore.t :=
  CreateText demo_backend
    (enter MemStore.empty
       (mkDomainOptions "_acme-challenge.x1.lb.example.com" [] "tok123")).

(** C1 on the code: CreateText succeeds and reports the text tok123, the
    store holds the JSON wrapper of it under the ACME namespace, and GetText
    for the same name returns that wrapper, not tok123. *)
Theorem C1_GetText_returns_wrapper :
  c1_created.1
  = inr (mkDomain "_acme-challenge.x1.lb.example.com" [] "tok123"
           (Some DefaultTTL)) ∧
  (GetText demo_backend
     (enter (store c1_created.2)
        (mkDomainOptions "_acme-challenge.x1.lb.example.com" [] ""))).1
  = inr (mkDomain "_acme-challenge.x1.lb.example.com" []
           (formatTextValue "tok123") (Some DefaultTTL)) ∧
  formatTextValue "tok123" ≠ "tok123".
Proof.
  split; [by vm_compute|]. split; [by vm_compute|]. apply formatTextValue_neq.
Qed.

(** A store in which the only slug the generator ever draws is taken, by a
    text record. *)
Definition c2_occupied : MemStore.t :=
  store
    (CreateText demo_backend
       (enter MemStore.empty
          (mkDomainOptions "aaaaaa.lb.example.com" [] "hello"))).2.

Definition c2_run : (Domain * Error + Domain) * World MemStore.t :=
  Create (R := demo_runtime) demo_backend
    (enter c2_occupied (mkDomainOptions "" ["1.2.3.4"] "")).

Definition probe_found (ev : Event) : bool :=
  match ev with
  | EvGet "/rdns/com/example/lb/aaaaaa" None (inr _) => true
  | _ => false
  end.

(** C2 on the code: all [maxSlugHashTimes] probes find the path taken, and
    Create goes on: it writes a token and the directory at the taken path,
    over the record that was there, adds the host, and returns without an
    error, the name in the options still the caller's. *)
Theorem C2_Create_proceeds_after_exhaustion :
  forallb probe_found (take maxSlugHashTimes (trace c2_run.2)) = true ∧
  length (trace c2_run.2) = maxSlugHashTimes + 6 ∧
  c2_run.1 = inr (mkDomain "" [] "" None) ∧
  dopts c2_run.2 = mkDomainOptions "" ["1.2.3.4"] "" ∧
  (kGet c2_occupied "/rdns/com/example/lb/aaaaaa" None).1
  = inr (mkResponse
           (mkNode "/rdns/com/example/lb/aaaaaa" false
              (formatTextValue "hello") [] (Some DefaultTTL))) ∧
  (kGet (store c2_run.2) "/rdns/com/example/lb/aaaaaa" None).1
  = inr (mkResponse
           (mkNode "/rdns/com/example/lb/aaaaaa" true ""
              [mkNode "/rdns/com/example/lb/aaaaaa/1_2_3_4" false
                 (formatValue "1.2.3.4") [] None]
              (Some DefaultTTL))).
Proof. repeat split; by vm_compute. Qed.

(** A domain registered at time 0 with one host and no ACME namespace in
    the store, renewed at time 1000. *)
Definition c10_w : World MemStore.t :=
  let w := (Create (R := demo_runtime) demo_backend
              (enter MemStore.empty (mkDomainOptions "" ["1.2.3.4"] ""))).2 in
  enter (MemStore.at_time 1000 (store w)) (dopts w).

Definition c10_w1 : World MemStore.t :=
  (setTokenOrigin (R := demo_runtime) demo_backend true c10_w).2.

Definition c10_set_dir : (Error + Response) * World MemStore.t :=
  kapi_Set (path demo_backend "aaaaaa.lb.example.com") ""
    (Some (mkSetOptions PrevExist (duration demo_backend) true)) c10_w1.

Definition c10_resp : Response :=
  mkResponse
    (mkNode "/rdns/com/example/lb/aaaaaa" true "" []
       (Some (1000 + DefaultTTL)%Z)).

Definition c10_w3 : World MemStore.t :=
  (lookupHosts (R := demo_runtime)
     (path demo_backend "aaaaaa.lb.example.com") c10_set_dir.2).2.

Lemma C10_Renew_fails_without_acme_namespace_witness :
  Renew (R := demo_runtime) demo_backend c10_w
  = (inl (mkDomain (o_Fqdn (dopts c10_w)) ["1.2.3.4"] ""
            (Expiration (RespNode c10_resp)),
          EtcdError ErrorCodeKeyNotFound),
     mkWorld (store c10_w3) (dopts c10_w) (draws c10_w3)
       (trace c10_w3
        ++ [EvGet (prePath demo_backend +:+ "/_txt/_acme-challenge")
              (Some (mkGetOptions true true))
              (inl (EtcdError ErrorCodeKeyNotFound))])).
Proof.
  apply (C10_Renew_fails_without_acme_namespace (R := demo_runtime)
           demo_backend c10_w c10_w1 c10_resp c10_set_dir.2 ["1.2.3.4"]
           c10_w3 (EtcdError ErrorCodeKeyNotFound) (store c10_w3));
    by vm_compute.
Defined.

(** The expiry the store reports for a key, if the key is there. *)
Definition expiry_at (s : MemStore.t) (key : string) : option (option Z) :=
  match (kGet s key None).1 with
  | inr resp => Some (Expiration (RespNode resp))
  | inl _ => None
  end.

(** In the world that failed Renew leaves, the token and the directory carry
    the new expiry: what was refreshed stays refreshed. *)
Example failed_Renew_keeps_refreshes :
  let w' := (Renew (R := demo_runtime) demo_backend c10_w).2 in
  expiry_at (store c10_w) "/rdns/com/example/lb/aaaaaa"
  = Some (Some DefaultTTL) ∧
  expiry_at (store w') "/rdns/com/example/lb/aaaaaa"
  = Some (Some (1000 + DefaultTTL)%Z) ∧
  expiry_at (store w') "/token_origin/aaaaaa_lb_example_com"
  = Some (Some (1000 + DefaultTTL)%Z).
Proof. by vm_compute. Qed.

(** ** Host reconciliation (C5) *)

(** A store call without its outcome. *)
Inductive Call : Type :=
  | CGet (key : string) (opts : option GetOptions)
  | CSet (key value : string) (opts : option SetOptions)
  | CDelete (key : string) (opts : option DeleteOptions).

Definition call_of (ev : Event) : Call :=
  match ev with
  | EvGet key opts _ => CGet key opts
  | EvSet key value opts _ => CSet key value opts
  | EvDelete key opts _ => CDelete key opts
  end.

Lemma elem_of_sliceToMap (ss : list string) h : h ∈ sliceToMap ss ↔ h ∈ ss.
Proof.
  unfold sliceToMap.
  assert (Hgen : ∀ acc : gset string,
            h ∈ foldl (λ m s, {[ s ]} ∪ m) acc ss ↔ h ∈ ss ∨ h ∈ acc).
  { induction ss as [|s ss IH]; intros acc; simpl.
    - rewrite elem_of_nil. tauto.
    - rewrite IH, elem_of_cons, elem_of_union, elem_of_singleton. tauto. }
  rewrite Hgen, elem_of_empty. tauto.
Qed.

Section reconcile.
Context {S : Type} {K : KeysAPI S} {R : Runtime}.
Implicit Types (e : BackendOperator) (w : World S) (path : string).

(** A loop that, for every element not skipped, makes one store call and
    leaves at its failure: when the loop ends without error, the calls made
    are those of the elements not skipped, in order, and none failed. *)
Lemma forM_calls {A X} (d : X) (skip : A → bool)
    (act : A → M S Error Response) (call : A → Call) (l : list A) :
  (∀ x w, ∃ ev, trace (act x w).2 = trace w ++ [ev] ∧ call_of ev = call x ∧
                (failed ev = None ↔ ∃ resp, (act x w).1 = inr resp)) →
  ∀ w w',
    forM_ l (λ x, if skip x then ret tt
                  else bind (mapErr (pair d) (act x)) (λ _, ret tt)) w
    = (inr tt, w') →
    ∃ evs, trace w' = trace w ++ evs ∧
           map call_of evs = map call (filter (λ x, skip x = false) l) ∧
           Forall (λ ev, failed ev = None) evs.
Proof.
  intros Hact. induction l as [|x l IH]; intros w w' Hrun; simpl in Hrun.
  - inversion Hrun; subst. exists []. by rewrite app_nil_r.
  - apply bind_inv in Hrun as [(y & Hy & [=])|(a & w1 & Hbody & Hrest)].
    destruct (IH _ _ Hrest) as (evs & Ht & Hc & Hok).
    destruct (skip x) eqn:Hskip.
    + inversion Hbody; subst. exists evs.
      rewrite filter_cons_False by (by rewrite Hskip). done.
    + rewrite filter_cons_True by done.
      destruct (Hact x w) as (ev & Hev & Hcall & Hfail).
      unfold bind, mapErr in Hbody.
      destruct (act x w) as [[err|resp] w0] eqn:Hax; simpl in *; [done|].
      inversion Hbody; subst. exists (ev :: evs).
      split; [by rewrite Ht, Hev, <- app_assoc|].
      split; [simpl; by rewrite Hcall, Hc|].
      constructor; [|done]. apply Hfail. by eexists.
Qed.

Lemma kapi_Delete_call key opts w :
  ∃ ev, trace (kapi_Delete key opts w).2 = trace w ++ [ev] ∧
        call_of ev = CDelete key opts ∧
        (failed ev = None ↔ ∃ resp, (kapi_Delete key opts w).1 = inr resp).
Proof.
  rewrite kapi_Delete_run. simpl. eexists. split; [done|]. split; [done|].
  simpl. destruct (kDelete _ _ _).1; split; try done.
  - by intros [? ?]. 
  - by eexists.
Qed.

Lemma kapi_Set_call key value opts w :
  ∃ ev, trace (kapi_Set key value opts w).2 = trace w ++ [ev] ∧
        call_of ev = CSet key value opts ∧
        (failed ev = None ↔ ∃ resp, (kapi_Set key value opts w).1 = inr resp).
Proof.
  rewrite kapi_Set_run. simpl. eexists. split; [done|]. split; [done|].
  simpl. destruct (kSet _ _ _ _).1; split; try done.
  - by intros [? ?].
  - by eexists.
Qed.

(** The keys a [range] visits that are missing from the other map: the
    elements of the difference, each once. *)
Lemma mapRange_difference (A B : gset string) :
  filter (λ h, bool_decide (h ∈ B) = false) (mapRange A)
  ≡ₚ elements (A ∖ B).
Proof.
  apply NoDup_Permutation.
  - apply NoDup_filter. rewrite mapRange_perm. apply NoDup_elements.
  - apply NoDup_elements.
  - intros h. rewrite list_elem_of_filter, mapRange_perm, !elem_of_elements,
      elem_of_difference, bool_decide_eq_false. tauto.
Qed.

Lemma set_hosts_run path (d : Domain) cur new w w' :
  set_hosts path d cur new w = (inr tt, w') →
  ∃ removed added dels adds,
    trace w' = trace w ++ dels ++ adds ∧
    map call_of dels
    = map (λ h, CDelete (path +:+ "/" +:+ formatKey h) None) removed ∧
    map call_of adds
    = map (λ h, CSet (path +:+ "/" +:+ formatKey h) (formatValue h) None)
        added ∧
    removed ≡ₚ elements (sliceToMap cur ∖ sliceToMap new) ∧
    added ≡ₚ elements (sliceToMap new ∖ sliceToMap cur) ∧
    Forall (λ ev, failed ev = None) (dels ++ adds).
Proof.
  unfold set_hosts. intros Hrun.
  apply bind_inv in Hrun as [(y & Hy & [=])|([] & w1 & Hdel & Hadd)].
  apply (forM_calls d (λ h, bool_decide (h ∈ sliceToMap new))
           (λ h, kapi_Delete (path +:+ "/" +:+ formatKey h) None)
           (λ h, CDelete (path +:+ "/" +:+ formatKey h) None)) in Hdel
    as (dels & Ht1 & Hc1 & Hok1); [|intros; apply kapi_Delete_call].
  apply (forM_calls d (λ h, bool_decide (h ∈ sliceToMap cur))
           (λ h, kapi_Set (path +:+ "/" +:+ formatKey h) (formatValue h) None)
           (λ h, CSet (path +:+ "/" +:+ formatKey h) (formatValue h) None))
    in Hadd as (adds & Ht2 & Hc2 & Hok2); [|intros; apply kapi_Set_call].
  eexists _, _, dels, adds.
  split; [by rewrite Ht2, Ht1, <- app_assoc|].
  split; [exact Hc1|]. split; [exact Hc2|].
  split; [apply mapRange_difference|]. split; [apply mapRange_difference|].
  by apply Forall_app.
Qed.

(** Whatever the outcome of such a loop, the calls it made are the calls
    of the first elements not skipped. *)
Lemma forM_calls_prefix {A X} (d : X) (skip : A → bool)
    (act : A → M S Error Response) (call : A → Call) (l : list A) :
  (∀ x w, ∃ ev, trace (act x w).2 = trace w ++ [ev] ∧ call_of ev = call x ∧
                (failed ev = None ↔ ∃ resp, (act x w).1 = inr resp)) →
  ∀ w,
    ∃ evs,
      trace
        (forM_ l (λ x, if skip x then ret tt
                       else bind (mapErr (pair d) (act x)) (λ _, ret tt)) w).2
      = trace w ++ evs ∧
      map call_of evs `prefix_of` map call (filter (λ x, skip x = false) l).
Proof.
  intros Hact. induction l as [|x l IH]; intros w.
  - exists []. by rewrite app_nil_r.
  - change (forM_ (x :: l) ?body) with (bind (body x) (λ _, forM_ l body)).
    cbv beta. destruct (skip x) eqn:Hskip.
    + rewrite (bind_ok _ _ w tt w) by done.
      rewrite filter_cons_False by (by rewrite Hskip). apply IH.
    + rewrite filter_cons_True by done.
      destruct (Hact x w) as (ev & Hev & Hcall & _).
      destruct (act x w) as [[err|resp] w0] eqn:Hax; simpl in Hev.
      * rewrite (bind_err _ _ w (d, err) w0)
          by (unfold bind, mapErr; by rewrite Hax).
        exists [ev]. split; [done|]. simpl. rewrite Hcall.
        apply prefix_cons, prefix_nil.
      * rewrite (bind_ok _ _ w tt w0)
          by (unfold bind, mapErr; by rewrite Hax).
        destruct (IH w0) as (evs & Ht & Hpre). exists (ev :: evs).
        split; [by rewrite Ht, Hev, <- app_assoc|].
        simpl. rewrite Hcall. by apply prefix_cons.
Qed.

(** The calls of the two loops of [set], whatever their outcome: deletes
    for current hosts that are not asked for, then writes for hosts asked for
    that are not current, each host at most once, up to the first call that
    fails. *)
Definition reconciling path (cur new : list string) (evs : list Event)
  : Prop :=
  ∃ removed added,
    removed ≡ₚ elements (sliceToMap cur ∖ sliceToMap new) ∧
    added ≡ₚ elements (sliceToMap new ∖ sliceToMap cur) ∧
    map call_of evs
    `prefix_of`
      map (λ h, CDelete (path +:+ "/" +:+ formatKey h) None) removed
      ++ map (λ h, CSet (path +:+ "/" +:+ formatKey h) (formatValue h) None)
           added.

Lemma set_hosts_reconciling path (d : Domain) cur new w :
  ∃ evs, trace (set_hosts path d cur new w).2 = trace w ++ evs ∧
         reconciling path cur new evs.
Proof.
  unfold set_hosts.
  match goal with |- context [bind ?m ?k w] =>
    set (loop1 := m); set (loop2 := k) end.
  destruct (forM_calls_prefix d (λ h, bool_decide (h ∈ sliceToMap new))
              (λ h, kapi_Delete (path +:+ "/" +:+ formatKey h) None)
              (λ h, CDelete (path +:+ "/" +:+ formatKey h) None)
              (mapRange (sliceToMap cur))
              (λ x w0, kapi_Delete_call _ None w0) w)
    as (evs1 & Ht1 & Hpre1).
  fold loop1 in Ht1. unfold bind.
  destruct (loop1 w) as [[x|[]] w1] eqn:Hl1; simpl in *.
  - exists evs1. split; [done|]. eexists _, _.
    split; [apply mapRange_difference|].
    split; [apply mapRange_difference|]. by apply prefix_app_r.
  - subst loop1.
    apply (forM_calls d (λ h, bool_decide (h ∈ sliceToMap new))
             (λ h, kapi_Delete (path +:+ "/" +:+ formatKey h) None)
             (λ h, CDelete (path +:+ "/" +:+ formatKey h) None)) in Hl1
      as (dels & Htd & Hcd & _); [|intros; apply kapi_Delete_call].
    destruct (forM_calls_prefix d (λ h, bool_decide (h ∈ sliceToMap cur))
                (λ h, kapi_Set (path +:+ "/" +:+ formatKey h)
                        (formatValue h) None)
                (λ h, CSet (path +:+ "/" +:+ formatKey h) (formatValue h)
                        None)
                (mapRange (sliceToMap new))
                (λ x w0, kapi_Set_call _ _ None w0) w1)
      as (evs2 & Ht2 & Hpre2).
    exists (dels ++ evs2). split.
    + subst loop2. simpl. by rewrite Ht2, Htd, <- app_assoc.
    + eexists _, _. split; [apply mapRange_difference|].
      split; [apply mapRange_difference|].
      rewrite map_app, Hcd. by apply prefix_app.
Qed.

(** What a successful [set] has done about hosts, with [B] the hosts asked
    for: after three calls for the token and the directory it read the
    current hosts [cur], then issued deletes for the hosts [removed] and
    writes for the hosts [added], none of which failed; [removed] lists the
    current hosts that are not asked for and [added] the hosts asked for
    that are not current, each once; removing and adding them turns the
    current set into [B]. *)
Definition reconciled path (B : gset string) w w' : Prop :=
  ∃ pre resp cur removed added dels adds,
    trace w'
    = trace w ++ pre
      ++ [EvGet path (Some (mkGetOptions true false)) (inr resp)]
      ++ dels ++ adds ∧
    length pre = 3 ∧
    lookupHosts_loop (Nodes (RespNode resp)) [] = inr cur ∧
    map call_of dels
    = map (λ h, CDelete (path +:+ "/" +:+ formatKey h) None) removed ∧
    map call_of adds
    = map (λ h, CSet (path +:+ "/" +:+ formatKey h) (formatValue h) None)
        added ∧
    removed ≡ₚ elements (sliceToMap cur ∖ B) ∧
    added ≡ₚ elements (B ∖ sliceToMap cur) ∧
    Forall (λ ev, failed ev = None) (dels ++ adds) ∧
    (sliceToMap cur ∖ list_to_set removed) ∪ list_to_set added = B.

Lemma mapErr_inv_ok {E E' A} (g : E → E') (m : M S E A) w a w1 :
  mapErr g m w = (inr a, w1) → m w = (inr a, w1).
Proof. unfold mapErr. destruct (m w) as [[x|b] w0]; congruence. Qed.

Lemma lookupHosts_inv path w cur w3 :
  lookupHosts path w = (inr cur, w3) →
  ∃ resp,
    trace w3
    = trace w ++ [EvGet path (Some (mkGetOptions true false)) (inr resp)] ∧
    dopts w3 = dopts w ∧
    lookupHosts_loop (Nodes (RespNode resp)) [] = inr cur.
Proof.
  unfold lookupHosts. intros Hrun.
  apply bind_inv in Hrun as [(y & Hy & [=])|(resp & w1 & Hget & Hloop)].
  apply mapErr_inv_ok in Hget. rewrite kapi_Get_run in Hget.
  inversion Hget as [[Hr Hw]]. inversion Hloop; subst. simpl.
  exists resp. by rewrite Hr.
Qed.

Lemma removed_added_sets (A B : gset string) (removed added : list string) :
  removed ≡ₚ elements (A ∖ B) → added ≡ₚ elements (B ∖ A) →
  (A ∖ list_to_set removed) ∪ list_to_set added = B.
Proof.
  intros Hr Ha. apply set_eq. intros h.
  rewrite elem_of_union, elem_of_difference, !elem_of_list_to_set, Hr, Ha,
    !elem_of_elements, !elem_of_difference.
  destruct (decide (h ∈ A)), (decide (h ∈ B)); tauto.
Qed.
End reconcile.

Lemma set_reconciled {S : Type} {K : KeysAPI S} {R : Runtime}
    (e : BackendOperator) (path : string) (exist : bool) (w : World S) d w' :
  set e path exist w = (inr d, w') →
  reconciled path (sliceToMap (o_Hosts (dopts w))) w w'.
Proof.
  unfold set. intros Hrun.
  apply bind_inv in Hrun as [(y & Hy & [=])|([] & w1 & Htok & Hrun)].
  apply bind_inv in Hrun as [(y & Hy & [=])|(resp0 & w2 & Hdir & Hrun)].
  apply bind_inv in Hrun as [(y & Hy & [=])|(cur & w3 & Hcur & Hrun)].
  apply bind_inv in Hrun as [(y & Hy & [=])|(o & w3' & Ho & Hrun)].
  inversion Ho; subst o w3'. clear Ho.
  apply bind_inv in Hrun as [(y & Hy & [=])|([] & w4 & Hhosts & Hrun)].
  apply bind_inv in Hrun as [(y & Hy & [=])|(o & w4' & Ho & Hrun)].
  inversion Ho; subst o w4'. clear Ho. inversion Hrun; subst. clear Hrun.
  apply mapErr_inv_ok in Htok, Hdir, Hcur.
  destruct (setTokenOrigin_trace e exist w) as (Hd1 & rd & wr & Ht1).
  rewrite Htok in Hd1, Ht1. simpl in Hd1, Ht1.
  match type of Hdir with kapi_Set ?k ?v ?o w1 = _ =>
    destruct (kapi_Set_trace k v o w1) as (Hd2 & Ht2) end.
  rewrite Hdir in Hd2, Ht2. simpl in Hd2, Ht2.
  apply lookupHosts_inv in Hcur as (resp & Ht3 & Hd3 & Hloop).
  apply set_hosts_run in Hhosts
    as (removed & added & dels & adds & Ht4 & Hc1 & Hc2 & Hp1 & Hp2 & Hok).
  assert (Hdw : dopts w3 = dopts w) by congruence.
  rewrite Hdw in *.
  match type of Ht2 with _ = _ ++ [?ev] =>
    exists [rd; wr; ev], resp, cur, removed, added, dels, adds end.
  split; [|split; [reflexivity|split; [exact Hloop|]]].
  - rewrite Ht4, Ht3, Ht2, Ht1. by rewrite <- !app_assoc.
  - split; [exact Hc1|]. split; [exact Hc2|]. split; [exact Hp1|].
    split; [exact Hp2|]. split; [exact Hok|].
    by apply removed_added_sets.
Qed.

(** The same, told of the slices themselves. *)

(** [l] lists, each once, the strings of [xs] that are not in [ys]. *)
Definition lists_difference (l xs ys : list string) : Prop :=
  NoDup l ∧ ∀ h, h ∈ l ↔ h ∈ xs ∧ h ∉ ys.

(** The hosts stored in a listing: one for each child, in order; the value
    of the child parses as a JSON object and the host is its field host. *)
Definition stored_hosts {R : Runtime} (nodes : list Node)
    (hosts : list string) : Prop :=
  Forall2
    (λ n h, ∃ m, json_Unmarshal (Value n) = inr m ∧
                 h = default "" (m !! "host"))
    nodes hosts.

(** What a [set] that returned without error has done about the hosts
    [new] asked for: after three calls for the token and the directory it
    read the listing of the directory, which stores the hosts [cur]; then it
    made one delete for each string of [removed] and one write for each
    string of [added], and no other call; none of them failed.  [removed]
    lists each host of [cur] that is not in [new] once, [added] each host of
    [new] that is not in [cur] once; a host is asked for exactly when it is
    current and not removed, or added. *)
Definition hosts_reconciled {S : Type} {R : Runtime} (path : string)
    (new : list string) (w w' : World S) : Prop :=
  ∃ pre resp cur removed added dels adds,
    trace w'
    = trace w ++ pre
      ++ [EvGet path (Some (mkGetOptions true false)) (inr resp)]
      ++ dels ++ adds ∧
    length pre = 3 ∧
    stored_hosts (Nodes (RespNode resp)) cur ∧
    lists_difference removed cur new ∧
    lists_difference added new cur ∧
    map call_of dels
    = map (λ h, CDelete (path +:+ "/" +:+ formatKey h) None) removed ∧
    map call_of adds
    = map (λ h, CSet (path +:+ "/" +:+ formatKey h) (formatValue h) None)
        added ∧
    Forall (λ ev, failed ev = None) (dels ++ adds) ∧
    ∀ h, (h ∈ cur ∧ h ∉ removed) ∨ h ∈ added ↔ h ∈ new.

Lemma lookupHosts_loop_stored {R : Runtime} (nodes : list Node) :
  ∀ acc cur, lookupHosts_loop nodes acc = inr cur →
             ∃ hs, stored_hosts nodes hs ∧ cur = acc ++ hs.
Proof.
  induction nodes as [|n ns IH]; intros acc cur Hrun; simpl in Hrun.
  - inversion Hrun; subst. exists []. split; [constructor|].
    by rewrite app_nil_r.
  - unfold convertToMap in Hrun.
    destruct (json_Unmarshal (Value n)) as [err|m] eqn:Hn; [done|].
    apply IH in Hrun as (hs & Hall & ->).
    exists (mapIndex m ValueHostKey :: hs).
    split; [|by rewrite <- app_assoc].
    constructor; [by exists m | done].
Qed.

Lemma difference_listed (cur new l : list string) :
  l ≡ₚ elements (sliceToMap cur ∖ sliceToMap new) →
  lists_difference l cur new.
Proof.
  intros Hl. split.
  - rewrite Hl. apply NoDup_elements.
  - intros h. by rewrite Hl, elem_of_elements, elem_of_difference,
      !elem_of_sliceToMap.
Qed.

(** C5: the host reconciliation of [set].  With A the hosts read from the
    store and B the hosts of the request, a [set] that returns without error
    has issued exactly one delete per element of A - B and one write per
    element of B - A, and no other call after the read of the hosts, so none
    for an element of both; removing the deleted hosts from A and adding the
    written ones gives B.  Whatever the outcome, the calls of the two loops
    are a leading part of those deletes and writes. *)
Theorem C5_set_reconciles_hosts {S : Type} {K : KeysAPI S} {R : Runtime}
    (e : BackendOperator) (path : string) (exist : bool) (w : World S) :
  (∀ d w', set e path exist w = (inr d, w') →
     hosts_reconciled path (o_Hosts (dopts w)) w w') ∧
  (∀ d cur new (w0 : World S),
     ∃ evs removed added,
       trace (set_hosts path d cur new w0).2 = trace w0 ++ evs ∧
       lists_difference removed cur new ∧
       lists_difference added new cur ∧
       map call_of evs
       `prefix_of`
         map (λ h, CDelete (path +:+ "/" +:+ formatKey h) None) removed
         ++ map (λ h, CSet (path +:+ "/" +:+ formatKey h) (formatValue h)
                        None) added).
Proof.
  split.
  - intros d w' Hrun. apply set_reconciled in Hrun
      as (pre & resp & cur & removed & added & dels & adds & Ht & Hl & Hloop
          & Hc1 & Hc2 & Hp1 & Hp2 & Hok & _).
    apply lookupHosts_loop_stored in Hloop as (hs & Hst & Hcur).
    simpl in Hcur. subst hs.
    apply difference_listed in Hp1, Hp2.
    exists pre, resp, cur, removed, added, dels, adds.
    split; [exact Ht|]. split; [exact Hl|]. split; [exact Hst|].
    split; [exact Hp1|]. split; [exact Hp2|]. split; [exact Hc1|].
    split; [exact Hc2|]. split; [exact Hok|].
    intros h. destruct Hp1 as [_ Hr], Hp2 as [_ Ha].
    rewrite Hr, Ha.
    destruct (decide (h ∈ cur)), (decide (h ∈ o_Hosts (dopts w))); tauto.
  - intros d cur new w0.
    destruct (set_hosts_reconciling path d cur new w0)
      as (evs & Ht & removed & added & Hp1 & Hp2 & Hpre).
    exists evs, removed, added. split; [exact Ht|].
    split; [by apply difference_listed|].
    split; [by apply difference_listed | exact Hpre].
Qed.

(** A registration with hosts 1.2.3.4 and 5.6.7.8, for which 1.2.3.4 and
    9.9.9.9 are then asked. *)
Definition c5_w : World MemStore.t :=
  let w := (Create (R := demo_runtime) demo_backend
              (enter MemStore.empty
                 (mkDomainOptions "" ["1.2.3.4"; "5.6.7.8"] ""))).2 in
  enter (store w)
    (mkDomainOptions "aaaaaa.lb.example.com" ["1.2.3.4"; "9.9.9.9"] "").

Definition c5_run : (Domain * Error + Domain) * World MemStore.t :=
  set (R := demo_runtime) demo_backend
    (path demo_backend "aaaaaa.lb.example.com") true c5_w.

Lemma C5_set_reconciles_hosts_witness :
  hosts_reconciled (R := demo_runtime)
    (path demo_backend "aaaaaa.lb.example.com")
    ["1.2.3.4"; "9.9.9.9"] c5_w c5_run.2.
Proof.
  apply (proj1
           (C5_set_reconciles_hosts (R := demo_runtime) demo_backend
              (path demo_backend "aaaaaa.lb.example.com") true c5_w)
           (mkDomain "aaaaaa.lb.example.com" ["1.2.3.4"; "9.9.9.9"] ""
              (Some DefaultTTL)) c5_run.2).
  by vm_compute.
Defined.

(** The calls of that run after the read of the hosts: one delete, for
    5.6.7.8, and one write, for 9.9.9.9; nothing for 1.2.3.4. *)
Example reconcile_calls :
  map call_of (drop 4 (trace c5_run.2))
  = [CDelete "/rdns/com/example/lb/aaaaaa/5_6_7_8" None;
     CSet "/rdns/com/example/lb/aaaaaa/9_9_9_9" (formatValue "9.9.9.9") None].
Proof. by vm_compute. Qed.

(** ** Renew and the ACME entries (C7) *)

Section renew_acme.
Context {S : Type} {K : KeysAPI S} {R : Runtime}.
Implicit Types (e : BackendOperator) (w : World S).

(** The store calls that refresh the ACME entries among [keys]: for each
    key that contains [source], in order, one read that succeeds and one
    write that succeeds, of the value just read, with the backend's TTL and
    on condition that the key exists; nothing for the other keys. *)
Fixpoint acme_refreshed e (source : string) (keys : list string)
    (evs : list Event) : Prop :=
  match keys with
  | [] => evs = []
  | key :: keys' =>
      if strings.Contains key source then
        ∃ resp resp' evs',
          evs = EvGet key (Some (mkGetOptions false false)) (inr resp)
                :: EvSet key (Value (RespNode resp))
                     (Some (mkSetOptions PrevExist (duration e) false))
                     (inr resp')
                :: evs' ∧
          acme_refreshed e source keys' evs'
      else acme_refreshed e source keys' evs
  end.

(** The part of the name that [refreshExpiration] looks for in the keys:
    the labels in forward order, joined with slashes. *)
Definition acme_source (o : DomainOptions) : string :=
  strings.Join (strings.Split (o_Fqdn o) ".") "/".

Lemma refresh_acme_run e (d : Domain) keys : ∀ w w',
  refresh_acme e d keys w = (inr tt, w') →
  dopts w' = dopts w ∧
  ∃ evs, trace w' = trace w ++ evs ∧
         acme_refreshed e (acme_source (dopts w)) keys evs.
Proof.
  unfold refresh_acme.
  induction keys as [|key keys IH]; intros w w' Hrun; simpl in Hrun.
  - inversion Hrun; subst. split; [done|]. exists []. by rewrite app_nil_r.
  - apply bind_inv in Hrun as [(y & Hy & [=])|([] & w1 & Hbody & Hrest)].
    apply IH in Hrest as (Hd & evs' & Ht & Hacme).
    apply bind_inv in Hbody as [(y & Hy & [=])|(o & w0 & Ho & Hbody)].
    inversion Ho; subst o w0. clear Ho. fold (acme_source (dopts w)) in Hbody.
    simpl. destruct (strings.Contains key (acme_source (dopts w))) eqn:Hc.
    + apply bind_inv in Hbody as [(y & Hy & [=])|(resp & w2 & Hget & Hbody)].
      apply bind_inv in Hbody as [(y & Hy & [=])|(resp' & w3 & Hset & Hbody)].
      inversion Hbody; subst w3. clear Hbody.
      apply mapErr_inv_ok in Hget, Hset. rewrite kapi_Get_run in Hget.
      rewrite kapi_Set_run in Hset.
      inversion Hget as [[Hr Hw2]]. rewrite <- Hw2 in Hset. simpl in Hset.
      inversion Hset as [[Hr' Hw1]]. rewrite <- Hw1 in Hd, Ht, Hacme.
      simpl in Hd, Ht, Hacme. split; [done|].
      exists (EvGet key (Some (mkGetOptions false false)) (inr resp)
              :: EvSet key (Value (RespNode resp))
                   (Some (mkSetOptions PrevExist (duration e) false))
                   (inr resp') :: evs').
      split.
      * rewrite Ht, Hr, Hr', <- !app_assoc. reflexivity.
      * by exists resp, resp', evs'.
    + inversion Hbody; subst w1. split; [done|]. by exists evs'.
Qed.

(** What a successful Renew has done about ACME entries: after four calls
    for the token, the directory and the hosts, it listed the ACME namespace
    and refreshed the entries of the listing that belong to the domain. *)
Definition acme_renewed e w w' : Prop :=
  ∃ pre listing evs,
    trace w'
    = trace w ++ pre
      ++ [EvGet (prePath e +:+ "/_txt/_acme-challenge")
            (Some (mkGetOptions true true)) (inr listing)]
      ++ evs ∧
    length pre = 4 ∧
    acme_refreshed e (acme_source (dopts w))
      (nodesToStringSlice (Nodes (RespNode listing))) evs.

Lemma Renew_acme_renewed e w d w' :
  Renew e w = (inr d, w') → acme_renewed e w w'.
Proof.
  unfold Renew. rewrite (bind_ok _ _ w (dopts w) w) by done.
  unfold refreshExpiration. intros Hrun.
  apply bind_inv in Hrun as [(y & Hy & [=])|([] & w1 & Htok & Hrun)].
  apply bind_inv in Hrun as [(y & Hy & [=])|(resp0 & w2 & Hdir & Hrun)].
  apply bind_inv in Hrun as [(y & Hy & [=])|(cur & w3 & Hcur & Hrun)].
  apply bind_inv in Hrun as [(y & Hy & [=])|(o & w3' & Ho & Hrun)].
  inversion Ho; subst o w3'. clear Ho.
  apply bind_inv in Hrun as [(y & Hy & [=])|(listing & w4 & Hlist & Hrun)].
  apply bind_inv in Hrun as [(y & Hy & [=])|([] & w5 & Hacme & Hrun)].
  inversion Hrun; subst. clear Hrun.
  apply mapErr_inv_ok in Htok, Hdir, Hcur, Hlist.
  destruct (setTokenOrigin_trace e true w) as (Hd1 & rd & wr & Ht1).
  rewrite Htok in Hd1, Ht1. simpl in Hd1, Ht1.
  match type of Hdir with kapi_Set ?k ?v ?o w1 = _ =>
    destruct (kapi_Set_trace k v o w1) as (Hd2 & Ht2) end.
  rewrite Hdir in Hd2, Ht2. simpl in Hd2, Ht2.
  apply lookupHosts_inv in Hcur as (resp & Ht3 & Hd3 & Hloop).
  match type of Hlist with kapi_Get ?k ?o w3 = _ =>
    destruct (kapi_Get_trace k o w3) as (Hd4 & Ht4) end.
  rewrite Hlist in Hd4, Ht4. simpl in Hd4, Ht4.
  apply refresh_acme_run in Hacme as (Hd5 & evs & Ht5 & Href).
  assert (Hdw : dopts w4 = dopts w) by congruence.
  rewrite Hdw in Href.
  match type of Ht2 with _ = _ ++ [?ev] =>
    match type of Ht3 with _ = _ ++ [?ev'] =>
      exists [rd; wr; ev; ev'], listing, evs end end.
  split; [|split; [reflexivity|exact Href]].
  rewrite Ht5, Ht4, Ht3, Ht2, Ht1. by rewrite <- !app_assoc.
Qed.

(** Every store call of Renew after the first one, the read of the token,
    is returned when it fails. *)
Lemma Renew_failures_after_first e w evs i ev err :
  trace (Renew e w).2 = trace w ++ evs →
  evs !! i = Some ev → 1 <= i → failed ev = Some err →
  returned (Renew e w).1 err.
Proof.
  intros Ht Hi Hle Hf.
  destruct (returns_after_Renew e w) as (heads & rest & Ht' & Hl & _ & Hp).
  rewrite Ht in Ht'. apply app_inv_head in Ht'. subst evs.
  rewrite lookup_app_r in Hi by lia.
  apply (Hp ev err); [|done]. by eapply list_elem_of_lookup_2.
Qed.
End renew_acme.

(** A node of a listing, at any depth. *)
Inductive listed (n : Node) : list Node → Prop :=
  | listed_here ns : n ∈ ns → listed n ns
  | listed_below m ns : m ∈ ns → listed n (Nodes m) → listed n ns.

(** The keys of the nodes of a listing, one for each node at any depth: the
    key of the first node, the keys of the nodes below it, then the keys of
    the nodes after it. *)
Inductive listing_keys : list Node → list string → Prop :=
  | listing_keys_nil : listing_keys [] []
  | listing_keys_cons n ns below after :
      listing_keys (Nodes n) below → listing_keys ns after →
      listing_keys (n :: ns) (Key n :: below ++ after).

Lemma nodesToStringSlice_listing (nodes : list Node) :
  listing_keys nodes (nodesToStringSlice nodes).
Proof.
  unfold nodesToStringSlice.
  assert (Hnode : ∀ node,
            listing_keys (Nodes node) (flat_map nodeKeys (Nodes node))).
  { induction node as [key dir value ns expiration IH]
      using Node_nested_ind.
    simpl. induction IH as [|n ns' Hn _ IHns]; [constructor|].
    change (flat_map nodeKeys (n :: ns'))
      with (nodeKeys n ++ flat_map nodeKeys ns').
    destruct n as [k d v below x].
    by apply (listing_keys_cons (mkNode k d v below x)). }
  induction nodes as [|n ns IH]; [constructor|].
  change (flat_map nodeKeys (n :: ns))
    with (nodeKeys n ++ flat_map nodeKeys ns).
  specialize (Hnode n). destruct n as [k d v below x].
  by apply (listing_keys_cons (mkNode k d v below x)).
Qed.

Lemma listing_keys_child ns keys m :
  listing_keys ns keys → m ∈ ns →
  Key m ∈ keys ∧
  ∃ below, listing_keys (Nodes m) below ∧ ∀ k, k ∈ below → k ∈ keys.
Proof.
  intros Hlk. induction Hlk as [|n ns below after H1 _ H2 IH2].
  - intros Hin. by apply elem_of_nil in Hin.
  - intros [->|Hin]%elem_of_cons.
    + split; [apply elem_of_cons; by left|]. exists below.
      split; [done|]. intros k Hk. apply elem_of_cons. right.
      apply elem_of_app. by left.
    + destruct (IH2 Hin) as (Hkey & bm & Hbm & Hsub). split.
      * apply elem_of_cons. right. apply elem_of_app. by right.
      * exists bm. split; [done|]. intros k Hk. apply elem_of_cons. right.
        apply elem_of_app. right. by apply Hsub.
Qed.

Lemma listed_key n ns :
  listed n ns → ∀ keys, listing_keys ns keys → Key n ∈ keys.
Proof.
  induction 1 as [ns Hin|m ns Hin _ IH]; intros keys Hlk.
  - by apply (listing_keys_child ns keys n).
  - destruct (listing_keys_child ns keys m Hlk Hin) as (_ & bm & Hbm & Hsub).
    by apply Hsub, IH.
Qed.

(** The read and the write that refresh the entry at [key]. *)
Definition refresh_pair (e : BackendOperator) (key : string)
    (resp resp' : Response) : list Event :=
  [EvGet key (Some (mkGetOptions false false)) (inr resp);
   EvSet key (Value (RespNode resp))
     (Some (mkSetOptions PrevExist (duration e) false)) (inr resp')].

Lemma acme_refreshed_pair (e : BackendOperator) (source : string) keys :
  ∀ evs, acme_refreshed e source keys evs →
  ∀ key, key ∈ keys → strings.Contains key source = true →
  ∃ resp resp' before after,
    evs = before ++ refresh_pair e key resp resp' ++ after.
Proof.
  induction keys as [|key0 keys IH]; intros evs Href key Hin Hc.
  - by apply elem_of_nil in Hin.
  - simpl in Href.
    destruct (strings.Contains key0 source) eqn:Hc0.
    + destruct Href as (resp & resp' & evs' & -> & Href).
      apply elem_of_cons in Hin as [->|Hin].
      * by exists resp, resp', [], evs'.
      * destruct (IH evs' Href key Hin Hc) as (r & r' & before & after & ->).
        exists r, r'.
        exists (EvGet key0 (Some (mkGetOptions false false)) (inr resp)
                :: EvSet key0 (Value (RespNode resp))
                     (Some (mkSetOptions PrevExist (duration e) false))
                     (inr resp') :: before), after.
        reflexivity.
    + apply elem_of_cons in Hin as [->|Hin]; [congruence|].
      by apply (IH evs Href key).
Qed.

(** What a Renew that returned without error has done about ACME entries:
    after four calls for the token, the directory and the hosts, it listed
    the ACME namespace; with [keys] the keys of the nodes listed, one for each
    node at any depth, it then made, for each key that contains the
    domain's forward-label path and for nothing else, a read and a write
    back of the value read.  So every node listed whose key contains that
    path has had its entry read and written back. *)
Definition acme_entries_renewed {S : Type} (e : BackendOperator)
    (w w' : World S) : Prop :=
  ∃ pre listing keys evs,
    trace w'
    = trace w ++ pre
      ++ [EvGet (prePath e +:+ "/_txt/_acme-challenge")
            (Some (mkGetOptions true true)) (inr listing)]
      ++ evs ∧
    length pre = 4 ∧
    listing_keys (Nodes (RespNode listing)) keys ∧
    acme_refreshed e (acme_source (dopts w)) keys evs ∧
    ∀ n, listed n (Nodes (RespNode listing)) →
         strings.Contains (Key n) (acme_source (dopts w)) = true →
         ∃ resp resp' before after,
           evs = before ++ refresh_pair e (Key n) resp resp' ++ after.

(** C7: a Renew that returns without error has, for every node of the ACME
    listing, at any depth, whose key contains the domain's forward-label
    path, read the entry and written back the value it read, unchanged, with
    the backend's TTL, and has made no other call after the listing; and in
    any Renew a failed read or write of an entry, like every failed call
    after the read of the token, is the error Renew returns: no entry is
    skipped. *)
Theorem C7_Renew_refreshes_acme_entries
    {S : Type} {K : KeysAPI S} {R : Runtime}
    (e : BackendOperator) (w : World S) :
  (∀ d w', Renew e w = (inr d, w') → acme_entries_renewed e w w') ∧
  (∀ evs i ev err,
     trace (Renew e w).2 = trace w ++ evs →
     evs !! i = Some ev → 1 <= i → failed ev = Some err →
     returned (Renew e w).1 err).
Proof.
  split.
  - intros d w' Hrun.
    apply Renew_acme_renewed in Hrun as (pre & listing & evs & Ht & Hl & Href).
    exists pre, listing, (nodesToStringSlice (Nodes (RespNode listing))), evs.
    split; [exact Ht|]. split; [exact Hl|].
    split; [apply nodesToStringSlice_listing|]. split; [exact Href|].
    intros n Hn Hc. apply (acme_refreshed_pair _ _ _ _ Href); [|exact Hc].
    apply (listed_key n _ Hn), nodesToStringSlice_listing.
  - intros evs i ev err. apply Renew_failures_after_first.
Qed.

(** A registration with two ACME entries below its name, made at time 0
    and renewed at time 1000. *)
Definition c7_w : World MemStore.t :=
  let w1 := (Create (R := demo_runtime) demo_backend
               (enter MemStore.empty (mkDomainOptions "" ["1.2.3.4"] ""))).2 in
  let w2 := (CreateText demo_backend
               (enter (store w1)
                  (mkDomainOptions "_acme-challenge.aaaaaa.lb.example.com" []
                     "tok1"))).2 in
  let w3 := (CreateText demo_backend
               (enter (store w2)
                  (mkDomainOptions "_acme-challenge.www.aaaaaa.lb.example.com"
                     [] "tok2"))).2 in
  enter (MemStore.at_time 1000 (store w3))
    (mkDomainOptions "aaaaaa.lb.example.com" [] "").

Definition c7_run : (Domain * Error + Domain) * World MemStore.t :=
  Renew (R := demo_runtime) demo_backend c7_w.

(** The value and the expiry the store reports for a key. *)
Definition entry_at (s : MemStore.t) (key : string)
  : option (string * option Z) :=
  match (kGet s key None).1 with
  | inr resp => Some (Value (RespNode resp), Expiration (RespNode resp))
  | inl _ => None
  end.

(** Renew succeeds there; after the listing it makes a read and a write for
    each of the two entries and for nothing else; both entries hold the text
    they held, with the new expiry. *)
Example Renew_two_acme_entries :
  c7_run.1
  = inr (mkDomain "aaaaaa.lb.example.com" ["1.2.3.4"] ""
           (Some (1000 + DefaultTTL)%Z)) ∧
  map call_of (drop 5 (trace c7_run.2))
  = [CGet "/rdns/_txt/_acme-challenge/aaaaaa/lb/example/com"
       (Some (mkGetOptions false false));
     CSet "/rdns/_txt/_acme-challenge/aaaaaa/lb/example/com"
       (formatTextValue "tok1")
       (Some (mkSetOptions PrevExist DefaultTTL false));
     CGet "/rdns/_txt/_acme-challenge/www/aaaaaa/lb/example/com"
       (Some (mkGetOptions false false));
     CSet "/rdns/_txt/_acme-challenge/www/aaaaaa/lb/example/com"
       (formatTextValue "tok2")
       (Some (mkSetOptions PrevExist DefaultTTL false))] ∧
  entry_at (store c7_w) "/rdns/_txt/_acme-challenge/aaaaaa/lb/example/com"
  = Some (formatTextValue "tok1", Some DefaultTTL) ∧
  entry_at (store c7_run.2)
    "/rdns/_txt/_acme-challenge/aaaaaa/lb/example/com"
  = Some (formatTextValue "tok1", Some (1000 + DefaultTTL)%Z) ∧
  entry_at (store c7_run.2)
    "/rdns/_txt/_acme-challenge/www/aaaaaa/lb/example/com"
  = Some (formatTextValue "tok2", Some (1000 + DefaultTTL)%Z).
Proof. repeat split; by vm_compute. Qed.

(* ===================================================================== *)
(** * Further properties of the package *)
(* ===================================================================== *)

(** ** Paths and keys *)

Section encoder_facts.
Import strings.
Implicit Types (e : BackendOperator).

Lemma Join_Split_ReplaceAll s c c' :
  Join (Split s c) (String c' EmptyString) = ReplaceAll s c c'.
Proof.
  induction s as [|a s IH]; simpl; [done|].
  pose proof (Split_nonempty s c) as Hn.
  destruct (Ascii.eqb a c).
  - destruct (Split s c) as [|y ys] eqn:E; [done|].
    rewrite Join_cons, IH. done.
  - destruct (Split s c) as [|y ys] eqn:E; [done|].
    destruct ys as [|z zs]; [simpl in *; by rewrite IH|].
    rewrite Join_cons. rewrite Join_cons in IH. rewrite <- IH. reflexivity.
Qed.

Lemma prefix_refl s : String.prefix s s = true.
Proof. apply String.prefix_correct, substring_all. Qed.

Lemma Contains_cons a s sub :
  Contains (String a s) sub
  = if String.prefix sub (String a s) then true else Contains s sub.
Proof. reflexivity. Qed.

Lemma Contains_refl s : Contains s s = true.
Proof.
  destruct s as [|a s]; [reflexivity|]. by rewrite Contains_cons, prefix_refl.
Qed.

Lemma Contains_app_r p s : Contains (p +:+ s) s = true.
Proof.
  induction p as [|a p IH]; [apply Contains_refl|].
  change (String a p +:+ s) with (String a (p +:+ s)).
  rewrite Contains_cons, IH. by destruct (String.prefix s _).
Qed.

Lemma has_byte_ReplaceAll s old new :
  old ≠ new → has_byte old (ReplaceAll s old new) = false.
Proof.
  intros Hne. induction s as [|a s IH]; simpl; [done|]. rewrite IH.
  destruct (Ascii.eqb_spec a old) as [->|Ha].
  - destruct (Ascii.eqb_spec new old); [congruence|done].
  - destruct (Ascii.eqb_spec a old); [congruence|done].
Qed.

Lemma ReplaceAll_id s old new :
  has_byte old s = false → ReplaceAll s old new = s.
Proof.
  induction s as [|a s IH]; simpl; [done|].
  intros [Ha Hs]%orb_false_iff. by rewrite Ha, IH.
Qed.

(** X1: the segments of a converted path.  For a domain name without a
    slash, [convertToPath] gives a slash followed by a string whose
    slash-separated segments are exactly the dot-separated labels of the
    name, last label first; so the label sequence can be read back from the
    path. *)
Theorem convertToPath_segments d :
  has_byte "/" d = false →
  ∃ s, convertToPath d = "/" +:+ s ∧
       Split s "/" = reverse (Split d ".") ∧
       reverse (Split s "/") = Split d "." ∧
       length (Split s "/") = length (Split d ".").
Proof.
  intros Hd. exists (Join (reverse (Split d ".")) "/").
  split; [apply convertToPath_spec|].
  assert (Hs : Split (Join (reverse (Split d ".")) "/") "/"
               = reverse (Split d ".")).
  { apply Split_Join.
    - intros E. apply (f_equal length) in E. rewrite length_reverse in E.
      pose proof (Split_nonempty d "."). by destruct (Split d ".").
    - apply Forall_reverse. by apply Split_has_byte. }
  rewrite Hs. split; [done|]. split; [apply reverse_involutive|].
  apply length_reverse.
Qed.

Lemma convertToPath_segments_witness :
  ∃ s, convertToPath "x1.lb.rancher.cloud" = "/" +:+ s ∧
       Split s "/" = reverse (Split "x1.lb.rancher.cloud" ".") ∧
       reverse (Split s "/") = Split "x1.lb.rancher.cloud" "." ∧
       length (Split s "/") = length (Split "x1.lb.rancher.cloud" ".").
Proof. apply (convertToPath_segments "x1.lb.rancher.cloud"). reflexivity. Defined.

(** X2: [formatKey] leaves no dot in a key, keeps its length, changes
    nothing else (a key without dots is returned as it is), and applying it
    twice is applying it once. *)
Theorem formatKey_no_dot key :
  has_byte "." (formatKey key) = false ∧
  String.length (formatKey key) = String.length key ∧
  (has_byte "." key = false → formatKey key = key) ∧
  formatKey (formatKey key) = formatKey key.
Proof.
  unfold formatKey. split; [by apply has_byte_ReplaceAll|].
  split; [apply ReplaceAll_length|]. split; [apply ReplaceAll_id|].
  apply ReplaceAll_id. by apply has_byte_ReplaceAll.
Qed.

Lemma string_app_inv_tail (s t u : string) : s +:+ u = t +:+ u → s = t.
Proof.
  revert t. induction s as [|a s IH]; intros [|b t] Heq; simpl in Heq.
  - done.
  - apply (f_equal String.length) in Heq.
    rewrite !string_length_app in Heq. simpl in Heq. lia.
  - apply (f_equal String.length) in Heq.
    rewrite !string_length_app in Heq. simpl in Heq. lia.
  - injection Heq as -> Heq. f_equal. by apply IH.
Qed.

(** X3: the values written for hosts and for texts.  [formatValue] and
    [formatTextValue] are injective, and no host value is a text value: the
    two kinds of record can be told apart by the stored string. *)
Theorem formatValue_injective_disjoint a b :
  (formatValue a = formatValue b → a = b) ∧
  (formatTextValue a = formatTextValue b → a = b) ∧
  formatValue a ≠ formatTextValue b.
Proof.
  unfold formatValue, formatTextValue. repeat split.
  - intros Heq.
    apply (string_app_inv_head ("{" +:+ dquote +:+ ValueHostKey +:+ dquote
                                +:+ ":" +:+ dquote)) in Heq.
    by apply (string_app_inv_tail _ _ (dquote +:+ "}")) in Heq.
  - intros Heq.
    apply (string_app_inv_head ("{" +:+ dquote +:+ ValueTextKey +:+ dquote
                                +:+ ":" +:+ dquote)) in Heq.
    by apply (string_app_inv_tail _ _ (dquote +:+ "}")) in Heq.
  - discriminate.
Qed.

Lemma textPath_acme e fqdn :
  Contains fqdn "_acme-challenge" = true →
  textPath e fqdn = prePath e +:+ "/_txt/" +:+ ReplaceAll fqdn "." "/".
Proof.
  unfold textPath. intros ->.
  change ("_txt" +:+ "." +:+ fqdn) with ("_txt." +:+ fqdn).
  rewrite Join_Split_ReplaceAll. reflexivity.
Qed.

(** X4: where a text record lives.  For a name that contains
    _acme-challenge the path is the prefix, then /_txt/, then the name with
    every dot replaced by a slash: the labels in forward order, not reversed.
    For any other name it is the ordinary reversed path. *)
Theorem textPath_forward_for_acme e fqdn :
  (Contains fqdn "_acme-challenge" = true →
   textPath e fqdn = prePath e +:+ "/_txt/" +:+ ReplaceAll fqdn "." "/") ∧
  (Contains fqdn "_acme-challenge" = false → textPath e fqdn = path e fqdn).
Proof.
  split; [apply textPath_acme|]. unfold textPath. by intros ->.
Qed.

Lemma textPath_forward_for_acme_witness :
  textPath demo_backend "_acme-challenge.x1.lb.rancher.cloud"
  = prePath demo_backend +:+ "/_txt/"
    +:+ ReplaceAll "_acme-challenge.x1.lb.rancher.cloud" "." "/".
Proof.
  apply (proj1 (textPath_forward_for_acme demo_backend
                  "_acme-challenge.x1.lb.rancher.cloud")).
  reflexivity.
Defined.

Lemma string_app_assoc (s t u : string) :
  (s +:+ t) +:+ u = s +:+ (t +:+ u).
Proof.
  induction s as [|a s IH]; [reflexivity|].
  change (String a ((s +:+ t) +:+ u) = String a (s +:+ t +:+ u)).
  by rewrite IH.
Qed.

(** The path under which CreateText keeps the record of _acme-challenge.d
    lies below the namespace that [refreshExpiration] lists, and it contains
    the string that [refreshExpiration] looks for when it renews d. *)
Lemma acme_record_path e d :
  let fqdn := "_acme-challenge." +:+ d in
  let source := Join (Split d ".") "/" in
  textPath e fqdn
  = (prePath e +:+ "/_txt/_acme-challenge") +:+ "/" +:+ source ∧
  Contains (textPath e fqdn) source = true.
Proof.
  intros fqdn source.
  assert (Hp : textPath e fqdn
               = ((prePath e +:+ "/_txt/_acme-challenge") +:+ "/")
                 +:+ source).
  { rewrite textPath_acme by reflexivity. subst source fqdn.
    rewrite Join_Split_ReplaceAll, !string_app_assoc. reflexivity. }
  split.
  - rewrite Hp. apply string_app_assoc.
  - rewrite Hp. apply Contains_app_r.
Qed.

(** X6: ordinary records and ACME records do not share a path.  For names
    without a slash, the path of a domain whose last label is not _txt is
    never the path of an ACME text record. *)
Theorem path_disjoint_from_acme e d fqdn :
  has_byte "/" d = false → has_byte "/" fqdn = false →
  last (Split d ".") ≠ Some "_txt" →
  Contains fqdn "_acme-challenge" = true →
  path e d ≠ textPath e fqdn.
Proof.
  intros Hd Hf Hlast Hacme Heq. apply Hlast.
  unfold path, textPath in Heq. rewrite Hacme, convertToPath_spec in Heq.
  apply string_app_inv_head, (string_app_inv_head "/") in Heq.
  apply (f_equal (λ s, Split s "/")) in Heq.
  change ("_txt" +:+ "." +:+ fqdn) with ("_txt." +:+ fqdn) in Heq.
  rewrite !Split_Join in Heq.
  - rewrite <- head_reverse, Heq. reflexivity.
  - done.
  - apply (Split_has_byte ("_txt." +:+ fqdn) "/"). simpl. exact Hf.
  - intros E. apply (f_equal length) in E. rewrite length_reverse in E.
    pose proof (Split_nonempty d "."). by destruct (Split d ".").
  - apply Forall_reverse. by apply Split_has_byte.
Qed.

Lemma path_disjoint_from_acme_witness :
  path demo_backend "x1.lb.rancher.cloud"
  ≠ textPath demo_backend "_acme-challenge.x1.lb.rancher.cloud".
Proof.
  apply (path_disjoint_from_acme demo_backend "x1.lb.rancher.cloud"
           "_acme-challenge.x1.lb.rancher.cloud");
    [reflexivity | reflexivity | discriminate | reflexivity].
Defined.
End encoder_facts.

(** ** Slices, maps and node listings *)

(** X7: [sliceToMap] holds exactly the strings of the slice: it is the set
    of its elements, so duplicates collapse; its size is at most the length
    of the slice, and equal to it when the slice has no duplicates. *)
Theorem sliceToMap_elements (ss : list string) :
  (∀ h, h ∈ sliceToMap ss ↔ h ∈ ss) ∧
  sliceToMap ss = list_to_set ss ∧
  size (sliceToMap ss) <= length ss ∧
  (NoDup ss → size (sliceToMap ss) = length ss).
Proof.
  assert (Heq : sliceToMap ss = list_to_set ss).
  { apply set_eq. intros h. by rewrite elem_of_sliceToMap, elem_of_list_to_set. }
  split; [intros h; apply elem_of_sliceToMap|]. split; [done|].
  rewrite Heq. split; [|apply size_list_to_set]. clear Heq.
  induction ss as [|s ss IH].
  - rewrite list_to_set_nil, size_empty. done.
  - rewrite list_to_set_cons, size_union_alt, size_singleton.
    assert (size (list_to_set ss ∖ {[s]} : gset string)
            <= size (list_to_set ss : gset string)).
    { apply subseteq_size. intros x. rewrite elem_of_difference. tauto. }
    simpl length. lia.
Qed.

(** The number of nodes in a tree: the node and everything below it. *)
Fixpoint nodeSize (node : Node) : nat :=
  Datatypes.S (list_sum (map nodeSize (Nodes node))).

Lemma length_nodeKeys node : length (nodeKeys node) = nodeSize node.
Proof.
  induction node as [key dir value nodes expiration IH] using Node_nested_ind.
  simpl. f_equal. induction IH as [|n ns Hn _ IHns]; simpl; [done|].
  by rewrite length_app, Hn, IHns.
Qed.

(** X8: [nodesToStringSlice] lists one key for every node of the listing,
    at every depth: its length is the number of nodes; the key of each node
    given and every key found below that node are in it; it distributes over
    appending listings; and on a listing without children it is the list of
    the nodes' keys. *)
Theorem nodesToStringSlice_all_keys (nodes : list Node) :
  length (nodesToStringSlice nodes) = list_sum (map nodeSize nodes) ∧
  (∀ node, node ∈ nodes →
     Key node ∈ nodesToStringSlice nodes ∧
     ∀ key, key ∈ nodesToStringSlice (Nodes node) →
            key ∈ nodesToStringSlice nodes) ∧
  (∀ more, nodesToStringSlice (nodes ++ more)
           = nodesToStringSlice nodes ++ nodesToStringSlice more) ∧
  (Forall (λ node, Nodes node = []) nodes →
   nodesToStringSlice nodes = map Key nodes).
Proof.
  unfold nodesToStringSlice. repeat split.
  - induction nodes as [|n ns IH]; simpl; [done|].
    by rewrite length_app, IH, length_nodeKeys.
  - apply list_elem_of_In, in_flat_map. exists node.
    split; [by apply list_elem_of_In|]. destruct node. simpl. by left.
  - intros key Hkey. apply list_elem_of_In, in_flat_map. exists node.
    split; [by apply list_elem_of_In|]. destruct node. simpl. right.
    by apply list_elem_of_In.
  - intros more. apply flat_map_app.
  - intros Hflat. induction Hflat as [|n ns Hn _ IH]; simpl; [done|].
    destruct n as [key dir value nodes' expiration]. simpl in *. subst nodes'.
    simpl. by rewrite IH.
Qed.

Lemma nodesToStringSlice_all_keys_witness :
  length
    (nodesToStringSlice
       [mkNode "/a" true "" [mkNode "/a/b" false "v" [] None] None;
        mkNode "/c" false "w" [] None])
  = list_sum
      (map nodeSize
         [mkNode "/a" true "" [mkNode "/a/b" false "v" [] None] None;
          mkNode "/c" false "w" [] None]) ∧
  nodesToStringSlice
    [mkNode "/a" true "" [mkNode "/a/b" false "v" [] None] None;
     mkNode "/c" false "w" [] None]
  = ["/a"; "/a/b"; "/c"].
Proof.
  split; [|reflexivity].
  apply (nodesToStringSlice_all_keys
           [mkNode "/a" true "" [mkNode "/a/b" false "v" [] None] None;
            mkNode "/c" false "w" [] None]).
Defined.

Section host_lists.
Context {R : Runtime}.

(** The host a stored value stands for, when it parses. *)
Definition parsed_host (node : Node) (host : string) : Prop :=
  ∃ m, convertToMap (Value node) = inr m ∧ host = mapIndex m ValueHostKey.

Lemma lookupHosts_loop_parsed (nodes : list Node) (acc : list string) :
  match lookupHosts_loop nodes acc with
  | inr hosts =>
      ∃ hs, Forall2 parsed_host nodes hs ∧ hosts = acc ++ hs
  | inl (hosts, err) =>
      ∃ k node hs,
        nodes !! k = Some node ∧ convertToMap (Value node) = inl err ∧
        Forall2 parsed_host (take k nodes) hs ∧ hosts = acc ++ hs
  end.
Proof.
  revert acc. induction nodes as [|n ns IH]; intros acc; simpl.
  - exists []. split; [constructor | by rewrite app_nil_r].
  - destruct (convertToMap (Value n)) as [err|m] eqn:Hn.
    + exists 0, n, []. simpl.
      repeat split; [done | constructor | by rewrite app_nil_r].
    + specialize (IH (acc ++ [mapIndex m ValueHostKey])).
      destruct (lookupHosts_loop ns _) as [[hosts err]|hosts].
      * destruct IH as (k & node & hs & Hk & Herr & Hall & ->).
        exists (Datatypes.S k), node, (mapIndex m ValueHostKey :: hs). simpl.
        repeat split; [done | done | | by rewrite <- app_assoc].
        constructor; [by exists m | done].
      * destruct IH as (hs & Hall & ->).
        exists (mapIndex m ValueHostKey :: hs).
        split; [|by rewrite <- app_assoc].
        constructor; [by exists m | done].
Qed.


(** X9: the loop of [lookupHosts].  It succeeds exactly when the value of
    every child parses, and then returns one host per child, in the order of
    the listing, after the hosts it started with; otherwise it returns the
    error of the first child whose value does not parse, with the hosts of the
    children before it. *)
Theorem lookupHosts_loop_spec (nodes : list Node) (acc : list string) :
  match lookupHosts_loop nodes acc with
  | inr hosts =>
      ∃ hs, Forall2 parsed_host nodes hs ∧ hosts = acc ++ hs
  | inl (hosts, err) =>
      ∃ k node hs,
        nodes !! k = Some node ∧ convertToMap (Value node) = inl err ∧
        Forall2 parsed_host (take k nodes) hs ∧ hosts = acc ++ hs
  end.
Proof. apply lookupHosts_loop_parsed. Qed.

Lemma Get_loop_filter (nodes : list Node) (d : Domain) :
  Get_loop nodes d
  = match lookupHosts_loop (List.filter (λ n, negb (Dir n)) nodes) (Hosts d)
    with
    | inr hosts => inr (mkDomain (Fqdn d) hosts (Text d) (DExpiration d))
    | inl (hosts, err) =>
        inl (mkDomain (Fqdn d) hosts (Text d) (DExpiration d), err)
    end.
Proof.
  revert d. induction nodes as [|n ns IH]; intros d; simpl.
  - by destruct d.
  - destruct (Dir n); simpl; [apply IH|].
    destruct (convertToMap (Value n)) as [err|m]; [by destruct d|].
    by rewrite IH.
Qed.

(** X10: the loop of [Get] reads hosts as the loop of [lookupHosts] does,
    except that it passes over directory children; it leaves the name, the
    text and the expiry of the snapshot as they are. *)
Theorem Get_loop_skips_directories (nodes : list Node) (d : Domain) :
  Get_loop nodes d
  = match lookupHosts_loop (List.filter (λ n, negb (Dir n)) nodes) (Hosts d)
    with
    | inr hosts => inr (mkDomain (Fqdn d) hosts (Text d) (DExpiration d))
    | inl (hosts, err) =>
        inl (mkDomain (Fqdn d) hosts (Text d) (DExpiration d), err)
    end.
Proof. apply Get_loop_filter. Qed.
End host_lists.

(** ** What the methods call the store with *)

Section calls.
Context {S : Type}.

(** Started with options [o], [m] leaves the options as they are and every
    store call it makes satisfies [P]. *)
Definition emits {E A} (o : DomainOptions) (P : Event → Prop)
    (m : M S E A) : Prop :=
  ∀ w, dopts w = o →
       dopts (m w).2 = o ∧
       ∃ evs, trace (m w).2 = trace w ++ evs ∧ Forall P evs.

Lemma emits_pure {E A} o P (r : E + A) : emits o P (λ w : World S, (r, w)).
Proof.
  intros w Ho. split; [done|]. exists []. by rewrite app_nil_r.
Qed.

Lemma emits_ret {E A} o P (a : A) : emits o P (ret (S := S) (E := E) a).
Proof. apply emits_pure. Qed.

Lemma emits_bind {E A B} o P (m : M S E A) (k : A → M S E B) :
  emits o P m → (∀ a, emits o P (k a)) → emits o P (bind m k).
Proof.
  intros Hm Hk w Ho. unfold bind.
  destruct (Hm w Ho) as (Ho1 & evs1 & Ht1 & Hp1).
  destruct (m w) as [[x|a] w1]; simpl in *.
  - split; [done|]. by exists evs1.
  - destruct (Hk a w1 Ho1) as (Ho2 & evs2 & Ht2 & Hp2).
    split; [done|]. exists (evs1 ++ evs2).
    split; [by rewrite Ht2, Ht1, app_assoc | by apply Forall_app].
Qed.

(** Reading the options gives [o]. *)
Lemma emits_read {E B} o P (k : DomainOptions → M S E B) :
  emits o P (k o) → emits o P (bind readDopts k).
Proof.
  intros Hk w Ho. rewrite (bind_ok _ _ w (dopts w) w) by done.
  rewrite Ho. by apply Hk.
Qed.

Lemma emits_mapErr {E E' A} o P (g : E → E') (m : M S E A) :
  emits o P m → emits o P (mapErr g m).
Proof.
  intros Hm w Ho. unfold mapErr. specialize (Hm w Ho).
  by destruct (m w) as [[x|a] w1].
Qed.

Lemma emits_attempt {E E' A} o P (m : M S E A) :
  emits o P m → emits o P (attempt (E' := E') m).
Proof.
  intros Hm w Ho. unfold attempt. specialize (Hm w Ho).
  by destruct (m w) as [r w1].
Qed.

Lemma emits_forM {E A} o P (l : list A) (body : A → M S E unit) :
  (∀ x, emits o P (body x)) → emits o P (forM_ l body).
Proof.
  intros Hb. induction l as [|x l IH]; simpl.
  - apply emits_ret.
  - apply emits_bind; [apply Hb | by intros _].
Qed.

Lemma emits_weaken {E A} o (P Q : Event → Prop) (m : M S E A) :
  (∀ ev, P ev → Q ev) → emits o P m → emits o Q m.
Proof.
  intros HPQ Hm w Ho. destruct (Hm w Ho) as (Ho1 & evs & Ht & Hp).
  split; [done|]. exists evs. split; [done|]. by eapply Forall_impl.
Qed.

Context {K : KeysAPI S}.

Lemma emits_kapi_Get o (P : Event → Prop) key opts :
  (∀ r, P (EvGet key opts r)) → emits o P (kapi_Get key opts).
Proof.
  intros HP w Ho. rewrite kapi_Get_run. simpl. split; [done|].
  eexists. split; [done|]. by repeat constructor.
Qed.

Lemma emits_kapi_Set o (P : Event → Prop) key value opts :
  (∀ r, P (EvSet key value opts r)) → emits o P (kapi_Set key value opts).
Proof.
  intros HP w Ho. rewrite kapi_Set_run. simpl. split; [done|].
  eexists. split; [done|]. by repeat constructor.
Qed.

Lemma emits_kapi_Delete o (P : Event → Prop) key opts :
  (∀ r, P (EvDelete key opts r)) → emits o P (kapi_Delete key opts).
Proof.
  intros HP w Ho. rewrite kapi_Delete_run. simpl. split; [done|].
  eexists. split; [done|]. by repeat constructor.
Qed.

Context {R : Runtime}.

Lemma emits_generateTokenOrigin {E} o P :
  emits o P (generateTokenOrigin (E := E)).
Proof.
  intros w Ho. split; [done|]. exists []. by rewrite app_nil_r.
Qed.
End calls.

(** Walks down a computation; the calls at the leaves are left as goals
    about one event each. *)
Ltac emits_step :=
  lazymatch goal with
  | |- emits _ _ (bind readDopts _) => apply emits_read
  | |- emits _ _ (bind _ _) => apply emits_bind; [|intros ?]
  | |- emits _ _ (mapErr _ _) => apply emits_mapErr
  | |- emits _ _ (attempt _) => apply emits_attempt
  | |- emits _ _ (forM_ _ _) => apply emits_forM; intros ?
  | |- emits _ _ (match ?r with inl _ => _ | inr _ => _ end) => destruct r
  | |- emits _ _ (if ?b then _ else _) => destruct b
  | |- emits _ _ (let _ := _ in _) => cbv zeta
  | |- emits _ _ (ret _) => apply emits_ret
  | |- emits _ _ (λ w, (_, w)) => apply emits_pure
  | |- emits _ _ generateTokenOrigin => apply emits_generateTokenOrigin
  | |- emits _ _ (kapi_Get _ _) => apply emits_kapi_Get; intros ?
  | |- emits _ _ (kapi_Set _ _ _) => apply emits_kapi_Set; intros ?
  | |- emits _ _ (kapi_Delete _ _) => apply emits_kapi_Delete; intros ?
  end.
Ltac emits_tac := repeat emits_step.

(** The key a store call is made at. *)
Definition event_key (ev : Event) : string :=
  match ev with
  | EvGet key _ _ | EvSet key _ _ _ | EvDelete key _ _ => key
  end.

(** A call that Renew may make: a read, or a write on condition that the
    key exists, with the backend's TTL. *)
Definition renew_call (e : BackendOperator) (ev : Event) : Prop :=
  match ev with
  | EvGet _ _ _ => True
  | EvSet _ _ opts _ =>
      ∃ dir, opts = Some (mkSetOptions PrevExist (duration e) dir)
  | EvDelete _ _ _ => False
  end.

(** A call that does not ask for the key to exist. *)
Definition unconditional (ev : Event) : Prop :=
  match ev with
  | EvSet _ _ (Some opts) _ => set_PrevExist opts = PrevIgnore
  | _ => True
  end.

(** A call at the token key of [fqdn], at [dir], or at a key made of
    [dir], a slash and [formatKey] of some string. *)
Definition registration_key (e : BackendOperator) (fqdn dir : string)
    (ev : Event) : Prop :=
  event_key ev = tokenOriginPath e fqdn ∨ event_key ev = dir ∨
  ∃ host, event_key ev = dir +:+ "/" +:+ formatKey host.

Section calls_backend.
Context {S : Type} {K : KeysAPI S} {R : Runtime}.
Implicit Types (e : BackendOperator) (w : World S).

Lemma emits_Renew e o : emits o (renew_call e) (Renew e).
Proof.
  unfold Renew, refreshExpiration, setTokenOrigin, lookupHosts, refresh_acme.
  emits_tac; simpl; eauto.
Qed.

(** X11: Renew never deletes a key and never creates one: every store call
    it makes is a read, or a write that carries the PrevExist condition and
    the backend's TTL. *)
Theorem Renew_never_creates e w :
  ∃ evs, trace (Renew e w).2 = trace w ++ evs ∧ Forall (renew_call e) evs.
Proof. by destruct (emits_Renew e (dopts w) w) as (_ & evs & Ht & Hp); eauto. Qed.

Lemma emits_set_unconditional e o path :
  emits o unconditional (set e path false).
Proof.
  unfold set, set_hosts, setTokenOrigin, lookupHosts.
  emits_tac; simpl; eauto.
Qed.

Lemma emits_Get e o (P : Event → Prop) :
  (∀ key r, P (EvGet key None r)) → emits o P (Get e).
Proof. intros HP. unfold Get. emits_tac; simpl; eauto. Qed.

Lemma probes_unconditional {E A} (m : M S E A) n w :
  probes n m →
  ∃ evs, trace (m w).2 = trace w ++ evs ∧ Forall unconditional evs.
Proof.
  intros Hm. destruct (Hm w) as (evs & Ht & _ & Hr). exists evs.
  split; [done|]. eapply Forall_impl; [exact Hr|].
  intros [] Hev; simpl in *; done.
Qed.

(** X12: Create, and an Update whose probe does not return a directory,
    never ask for a key to exist: none of their writes carries the PrevExist
    condition, so they create what is missing. *)
Theorem Create_and_fresh_Update_unconditional e w :
  (∃ evs, trace (Create e w).2 = trace w ++ evs ∧
          Forall unconditional evs) ∧
  ((∀ resp, (kGet (store w) (path e (o_Fqdn (dopts w)))
               (Some (mkGetOptions false false))).1 = inr resp →
            Dir (RespNode resp) = false) →
   ∃ evs, trace (Update e w).2 = trace w ++ evs ∧
          Forall unconditional evs).
Proof.
  split.
  - unfold Create, bind at 1.
    destruct (probes_unconditional (Create_loop e maxSlugHashTimes "")
                maxSlugHashTimes w (probes_Create_loop e _ _))
      as (evs1 & Ht1 & Hp1).
    destruct (Create_loop e maxSlugHashTimes "" w) as [[x|p] w1];
      simpl in *; [by exists evs1|].
    assert (Hk : emits (dopts w1) unconditional
                   (bind (set e p false) (λ _, Get e))).
    { apply emits_bind; [apply emits_set_unconditional|].
      intros _. by apply emits_Get. }
    destruct (Hk w1 eq_refl) as (_ & evs2 & Ht2 & Hp2).
    exists (evs1 ++ evs2).
    split; [by rewrite Ht2, Ht1, app_assoc | by apply Forall_app].
  - intros Hprobe. unfold Update.
    rewrite (bind_ok _ _ w (dopts w) w) by done.
    unfold bind at 1, attempt. rewrite kapi_Get_run. simpl.
    destruct (kGet _ _ _) as [r s1] eqn:Hget. simpl in *.
    assert (Hexist : match r with
                     | inr resp => Dir (RespNode resp)
                     | inl _ => false
                     end = false).
    { destruct r as [err|resp]; [done|]. by apply Hprobe. }
    rewrite Hexist.
    match goal with |- context [set e ?p false ?w1] =>
      destruct (emits_set_unconditional e (dopts w) p w1 eq_refl)
        as (_ & evs & Ht & Hp) end.
    eexists (_ :: evs). split.
    + rewrite Ht. simpl. rewrite <- app_assoc. reflexivity.
    + constructor; [exact I | done].
Qed.

Lemma emits_set_keys e o path (exist : bool) :
  emits o (registration_key e (o_Fqdn o) path) (set e path exist).
Proof.
  unfold set, set_hosts, setTokenOrigin, lookupHosts, registration_key.
  emits_tac; simpl; eauto.
Qed.

(** X13: the keys of Update: every store call it makes is at the token key
    of the domain, at the domain's directory path, or at a key made of that
    path, a slash and [formatKey] of some string. *)
Theorem Update_stays_in_registration e w :
  ∃ evs, trace (Update e w).2 = trace w ++ evs ∧
         Forall (registration_key e (o_Fqdn (dopts w))
                   (path e (o_Fqdn (dopts w)))) evs.
Proof.
  assert (Hu : emits (dopts w)
                 (registration_key e (o_Fqdn (dopts w))
                    (path e (o_Fqdn (dopts w)))) (Update e)).
  { unfold Update. apply emits_read. apply emits_bind.
    - apply emits_attempt, emits_kapi_Get. intros r.
      unfold registration_key. simpl. eauto.
    - intros r. apply emits_set_keys. }
  by destruct (Hu w eq_refl) as (_ & evs & Ht & Hp); eauto.
Qed.
End calls_backend.

(** ** Single-record methods *)

Section single_record.
Context {S : Type} {K : KeysAPI S}.
Implicit Types (e : BackendOperator) (w : World S).

Lemma GetText_run e w :
  let p := textPath e (o_Fqdn (dopts w)) in
  let rd := kGet (store w) p None in
  GetText e w
  = (match rd.1 with
     | inl err => inl (zeroDomain, err)
     | inr resp =>
         inr (mkDomain (o_Fqdn (dopts w)) [] (Value (RespNode resp))
                (Expiration (RespNode resp)))
     end,
     mkWorld rd.2 (dopts w) (draws w) (trace w ++ [EvGet p None rd.1])).
Proof.
  unfold GetText, bind, readDopts, mapErr. rewrite kapi_Get_run. simpl.
  by destruct (kGet _ _ _) as [[err|resp] s1].
Qed.

Lemma GetTokenOrigin_run e fqdn w :
  let p := tokenOriginPath e fqdn in
  let rd := kGet (store w) p None in
  GetTokenOrigin e fqdn w
  = (match rd.1 with
     | inl err => inl err
     | inr resp => inr (Value (RespNode resp))
     end,
     mkWorld rd.2 (dopts w) (draws w) (trace w ++ [EvGet p None rd.1])).
Proof.
  unfold GetTokenOrigin, bind. rewrite kapi_Get_run. simpl.
  by destruct (kGet _ _ _) as [[err|resp] s1].
Qed.

Lemma Delete_run e w :
  let p := path e (o_Fqdn (dopts w)) in
  let opts := Some (mkDeleteOptions true true) in
  let del := kDelete (store w) p opts in
  Delete e w
  = (match del.1 with inl err => inl err | inr _ => inr tt end,
     mkWorld del.2 (dopts w) (draws w) (trace w ++ [EvDelete p opts del.1])).
Proof.
  unfold Delete, bind, readDopts. rewrite kapi_Delete_run. simpl.
  by destruct (kDelete _ _ _) as [[err|resp] s1].
Qed.

Lemma DeleteText_run e w :
  let p := textPath e (o_Fqdn (dopts w)) in
  let opts := Some (mkDeleteOptions true true) in
  let del := kDelete (store w) p opts in
  DeleteText e w
  = (match del.1 with inl err => inl err | inr _ => inr tt end,
     mkWorld del.2 (dopts w) (draws w) (trace w ++ [EvDelete p opts del.1])).
Proof.
  unfold DeleteText, bind, readDopts. rewrite kapi_Delete_run. simpl.
  by destruct (kDelete _ _ _) as [[err|resp] s1].
Qed.

(** X14: GetText and GetTokenOrigin make one store call each, a read of
    the record's key, and give back what that read gave: the value of the
    node as stored, or the error of the read.  Neither writes. *)
Theorem text_and_token_reads e fqdn w :
  (∃ r, trace (GetText e w).2
        = trace w ++ [EvGet (textPath e (o_Fqdn (dopts w))) None r] ∧
        store (GetText e w).2
        = (kGet (store w) (textPath e (o_Fqdn (dopts w))) None).2 ∧
        match r with
        | inl err => ∃ d, (GetText e w).1 = inl (d, err)
        | inr resp =>
            ∃ d, (GetText e w).1 = inr d ∧
                 Text d = Value (RespNode resp) ∧
                 Fqdn d = o_Fqdn (dopts w) ∧
                 DExpiration d = Expiration (RespNode resp)
        end) ∧
  (∃ r, trace (GetTokenOrigin e fqdn w).2
        = trace w ++ [EvGet (tokenOriginPath e fqdn) None r] ∧
        (GetTokenOrigin e fqdn w).1
        = match r with
          | inl err => inl err
          | inr resp => inr (Value (RespNode resp))
          end).
Proof.
  split.
  - pose proof (GetText_run e w) as Hrun. cbv zeta in Hrun. rewrite Hrun.
    simpl. eexists. split; [done|]. split; [done|].
    destruct (kGet _ _ _).1 as [err|resp]; eauto.
  - pose proof (GetTokenOrigin_run e fqdn w) as Hrun. cbv zeta in Hrun.
    rewrite Hrun. simpl. by eexists.
Qed.

(** X15: Delete and DeleteText make exactly one store call: a recursive
    directory delete of the record's path.  Their outcome is the outcome of
    that call. *)
Theorem deletes_are_one_recursive_call e w :
  (∃ r, trace (Delete e w).2
        = trace w ++ [EvDelete (path e (o_Fqdn (dopts w)))
                        (Some (mkDeleteOptions true true)) r] ∧
        (Delete e w).1
        = match r with inl err => inl err | inr _ => inr tt end) ∧
  (∃ r, trace (DeleteText e w).2
        = trace w ++ [EvDelete (textPath e (o_Fqdn (dopts w)))
                        (Some (mkDeleteOptions true true)) r] ∧
        (DeleteText e w).1
        = match r with inl err => inl err | inr _ => inr tt end).
Proof.
  split.
  - pose proof (Delete_run e w) as Hrun. cbv zeta in Hrun. rewrite Hrun.
    simpl. by eexists.
  - pose proof (DeleteText_run e w) as Hrun. cbv zeta in Hrun. rewrite Hrun.
    simpl. by eexists.
Qed.

(** The write that CreateText and UpdateText end with, given whether the
    record is taken to exist. *)
Lemma setText_run e p (exist : bool) w :
  let opts := Some (mkSetOptions (if exist then PrevExist else PrevIgnore)
                      (duration e) false) in
  let wr := kSet (store w) p (formatTextValue (o_Text (dopts w))) opts in
  setText e p exist w
  = (match wr.1 with
     | inl err => inl (zeroDomain, err)
     | inr resp =>
         inr (mkDomain (o_Fqdn (dopts w)) [] (o_Text (dopts w))
                (Expiration (RespNode resp)))
     end,
     mkWorld wr.2 (dopts w) (draws w)
       (trace w ++ [EvSet p (formatTextValue (o_Text (dopts w))) opts wr.1])).
Proof.
  unfold setText, bind, readDopts, mapErr. rewrite kapi_Set_run. simpl.
  by destruct (kSet _ _ _ _) as [[err|resp] s1].
Qed.

(** X16: CreateText and UpdateText make two store calls, both at the path
    of the text record: a probe, then a write of the wrapped text with the
    backend's TTL.  CreateText writes without condition only when the probe
    failed with key-not-found, and otherwise on condition that the key
    exists; UpdateText sets that condition only when the probe returned a
    directory.  On success the snapshot carries the name and the text of the
    request and the expiry reported by the write. *)
Theorem text_writes_probe_then_write e w :
  let p := textPath e (o_Fqdn (dopts w)) in
  let value := formatTextValue (o_Text (dopts w)) in
  (∃ probe wr,
     trace (CreateText e w).2
     = trace w ++ [EvGet p None probe;
                   EvSet p value
                     (Some (mkSetOptions
                              (match probe with
                               | inl err =>
                                   if IsKeyNotFound err then PrevIgnore
                                   else PrevExist
                               | inr _ => PrevExist
                               end) (duration e) false)) wr] ∧
     match wr with
     | inl err => ∃ d, (CreateText e w).1 = inl (d, err)
     | inr resp =>
         (CreateText e w).1
         = inr (mkDomain (o_Fqdn (dopts w)) [] (o_Text (dopts w))
                  (Expiration (RespNode resp)))
     end) ∧
  (∃ probe wr,
     trace (UpdateText e w).2
     = trace w ++ [EvGet p (Some (mkGetOptions false false)) probe;
                   EvSet p value
                     (Some (mkSetOptions
                              (match probe with
                               | inr resp =>
                                   if Dir (RespNode resp) then PrevExist
                                   else PrevIgnore
                               | inl _ => PrevIgnore
                               end) (duration e) false)) wr] ∧
     match wr with
     | inl err => ∃ d, (UpdateText e w).1 = inl (d, err)
     | inr resp =>
         (UpdateText e w).1
         = inr (mkDomain (o_Fqdn (dopts w)) [] (o_Text (dopts w))
                  (Expiration (RespNode resp)))
     end).
Proof.
  intros p value. split.
  - unfold CreateText. rewrite (bind_ok _ _ w (dopts w) w) by done.
    unfold bind, attempt. rewrite kapi_Get_run. simpl.
    fold p. destruct (kGet (store w) p None) as [probe s1]. simpl.
    match goal with |- context [setText e p ?b ?w1] =>
      pose proof (setText_run e p b w1) as Hrun end.
    cbv zeta in Hrun. rewrite Hrun. simpl. fold value.
    exists probe. eexists. split.
    + rewrite <- app_assoc. simpl. repeat f_equal.
      destruct probe as [err|resp]; [by destruct (IsKeyNotFound err)|done].
    + destruct (kSet _ _ _ _).1 as [err|resp]; eauto.
  - unfold UpdateText. rewrite (bind_ok _ _ w (dopts w) w) by done.
    unfold bind, attempt. rewrite kapi_Get_run. simpl.
    fold p. destruct (kGet (store w) p _) as [probe s1]. simpl.
    match goal with |- context [setText e p ?b ?w1] =>
      pose proof (setText_run e p b w1) as Hrun end.
    cbv zeta in Hrun. rewrite Hrun. simpl. fold value.
    exists probe. eexists. split.
    + rewrite <- app_assoc. simpl. repeat f_equal.
      destruct probe as [err|resp]; [done|by destruct (Dir _)].
    + destruct (kSet _ _ _ _).1 as [err|resp]; eauto.
Qed.
End single_record.

(** ** The slug loop of Create *)

(** The name made from the [k]-th random string drawn. *)
Definition slug_fqdn {R : Runtime} (e : BackendOperator) (k : nat) : string :=
  RandStringWithSmall slugLength k +:+ "." +:+ rootDomain e.

(** The probe reported that nothing is stored at its path. *)
Definition found_free (ev : Event) : bool :=
  match ev with
  | EvGet _ _ (inl err) => IsKeyNotFound err
  | _ => false
  end.

Section slug_loop.
Context {S : Type} {K : KeysAPI S} {R : Runtime}.
Implicit Types (e : BackendOperator) (w : World S).

(** What the slug loop has done when it ends, given the probes [evs] it
    made from world [w]: it returns the path of its last probe; if that probe
    found the path free, the name of that probe is now in the options;
    otherwise all [n] attempts were used and the options are as they were. *)
Definition slug_loop_outcome e (n : nat) (p : string) w
    (r : (Domain * Error) + string) (w' : World S) (evs : list Event)
  : Prop :=
  match last evs with
  | None => n = 0 ∧ r = inr p ∧ dopts w' = dopts w
  | Some ev =>
      r = inr (event_key ev) ∧
      if found_free ev
      then dopts w'
           = mkDomainOptions (slug_fqdn e (draws w + length evs - 1))
               (o_Hosts (dopts w)) (o_Text (dopts w))
      else length evs = n ∧ dopts w' = dopts w
  end.

(** One turn of the slug loop. *)
Lemma Create_loop_step e n p w :
  let p0 := path e (slug_fqdn e (draws w)) in
  let rd := kGet (store w) p0 None in
  let tr := trace w ++ [EvGet p0 None rd.1] in
  Create_loop e (Datatypes.S n) p w
  = if found_free (EvGet p0 None rd.1)
    then (inr p0,
          mkWorld rd.2
            (mkDomainOptions (slug_fqdn e (draws w)) (o_Hosts (dopts w))
               (o_Text (dopts w)))
            (Datatypes.S (draws w)) tr)
    else Create_loop e n p0
           (mkWorld rd.2 (dopts w) (Datatypes.S (draws w)) tr).
Proof.
  simpl. unfold bind at 1, generateSlug. simpl.
  unfold bind at 1, attempt. rewrite kapi_Get_run. simpl.
  fold (slug_fqdn e (draws w)).
  destruct (kGet _ _ _) as [[err|resp] s1]; simpl; [|done].
  by destruct (IsKeyNotFound err).
Qed.

Lemma Create_loop_probes e n : ∀ p w,
  ∃ evs,
    trace (Create_loop e n p w).2 = trace w ++ evs ∧
    draws (Create_loop e n p w).2 = draws w + length evs ∧
    length evs <= n ∧
    (∀ i ev, evs !! i = Some ev →
       ∃ r, ev = EvGet (path e (slug_fqdn e (draws w + i))) None r) ∧
    (∀ i ev, evs !! i = Some ev → Datatypes.S i < length evs →
       found_free ev = false) ∧
    slug_loop_outcome e n p w (Create_loop e n p w).1
      (Create_loop e n p w).2 evs.
Proof.
  induction n as [|n IH]; intros p w.
  - exists []. simpl. rewrite app_nil_r, Nat.add_0_r.
    repeat split; [lia | intros i ev; by rewrite lookup_nil
                  | intros i ev; by rewrite lookup_nil].
  - pose proof (Create_loop_step e n p w) as Hstep. cbv zeta in Hstep.
    rewrite Hstep. clear Hstep.
    set (p0 := path e (slug_fqdn e (draws w))).
    destruct (kGet (store w) p0 None) as [r0 s1]. cbn [fst snd].
    set (ev0 := EvGet p0 None r0).
    destruct (found_free ev0) eqn:Hev0.
    + exists [ev0]. cbn [fst snd trace draws length].
      split; [done|]. split; [lia|]. split; [lia|]. split; [|split].
      * intros [|i] ev Hi; simpl in Hi; [|by rewrite lookup_nil in Hi].
        inversion Hi; subst ev. rewrite Nat.add_0_r. by eexists.
      * intros i ev _ Hlt. simpl in Hlt. lia.
      * unfold slug_loop_outcome. cbn [last length dopts]. rewrite Hev0.
        split; [done|]. by replace (draws w + 1 - 1) with (draws w) by lia.
    + match goal with |- context [Create_loop e n p0 ?w2] =>
        destruct (IH p0 w2) as (evs & Ht & Hd & Hlen & Hkeys & Hbefore & Hout);
        set (run := Create_loop e n p0 w2) in * end.
      simpl in Ht, Hd, Hkeys, Hout. exists (ev0 :: evs).
      split; [by rewrite Ht, <- app_assoc|].
      split; [rewrite Hd; simpl; lia|]. split; [simpl; lia|].
      split; [|split].
      * intros [|i] ev Hi; simpl in Hi.
        -- inversion Hi; subst ev. rewrite Nat.add_0_r. by eexists.
        -- destruct (Hkeys i ev Hi) as [r ->].
           replace (draws w + Datatypes.S i) with (Datatypes.S (draws w) + i)
             by lia.
           by eexists.
      * intros [|i] ev Hi Hlt; simpl in Hi, Hlt.
        -- by inversion Hi; subst ev.
        -- apply (Hbefore i ev Hi). lia.
      * unfold slug_loop_outcome in *.
        destruct evs as [|ev1 evs'].
        -- simpl in *. destruct Hout as (-> & Hr & Hdo). rewrite Hev0.
           by rewrite Hr, Hdo.
        -- change (last (ev0 :: ev1 :: evs')) with (last (ev1 :: evs')).
           destruct (last (ev1 :: evs')) as [ev|] eqn:Hlast.
           ++ destruct Hout as [Hr Hdo]. split; [done|].
              destruct (found_free ev).
              ** rewrite Hdo. simpl. f_equal. f_equal. lia.
              ** destruct Hdo as [Hl Hdo]. simpl in *. split; [lia|done].
           ++ destruct Hout as [-> _]. simpl in Hlen. lia.
Qed.

(** X17: Create takes the first slug whose probe reports key-not-found.
    The slug loop makes at most [maxSlugHashTimes] probes, the i-th a read
    of the path of the i-th random name drawn; it stops at the first probe
    that fails with key-not-found, writes that name into the options and
    returns its path; every probe before it found the path taken or failed
    otherwise.  When no probe reports key-not-found, all attempts are used,
    the options are left alone and the path of the last probe is returned. *)
Theorem Create_loop_first_free e w :
  ∃ evs,
    trace (Create_loop e maxSlugHashTimes "" w).2 = trace w ++ evs ∧
    draws (Create_loop e maxSlugHashTimes "" w).2 = draws w + length evs ∧
    length evs <= maxSlugHashTimes ∧
    (∀ i ev, evs !! i = Some ev →
       ∃ r, ev = EvGet (path e (slug_fqdn e (draws w + i))) None r) ∧
    (∀ i ev, evs !! i = Some ev → Datatypes.S i < length evs →
       found_free ev = false) ∧
    slug_loop_outcome e maxSlugHashTimes "" w
      (Create_loop e maxSlugHashTimes "" w).1
      (Create_loop e maxSlugHashTimes "" w).2 evs.
Proof. apply Create_loop_probes. Qed.
End slug_loop.

(** ** The caller's options after Create (C9) *)

Section options_after_Create.
Context {S : Type} {K : KeysAPI S} {R : Runtime}.
Implicit Types (e : BackendOperator) (w : World S).

Lemma returns_after_extends {E A} `{!ErrOf E} n (m : M S E A) w :
  returns_after n m → ∃ evs, trace (m w).2 = trace w ++ evs.
Proof.
  intros Hm. destruct (Hm w) as (heads & rest & Ht & _).
  by exists (heads ++ rest).
Qed.

(** After its slug loop Create leaves the options alone and only adds store
    calls. *)
Lemma Create_after_loop e w :
  dopts (Create e w).2 = dopts (Create_loop e maxSlugHashTimes "" w).2 ∧
  ∃ rest, trace (Create e w).2
          = trace (Create_loop e maxSlugHashTimes "" w).2 ++ rest.
Proof.
  unfold Create. generalize (Create_loop e maxSlugHashTimes "").
  intros loop. destruct (loop w) as [[x|p] w1] eqn:Hl.
  - rewrite (bind_err _ _ w x w1 Hl). simpl. split; [done|]. exists [].
    by rewrite app_nil_r.
  - rewrite (bind_ok _ _ w p w1 Hl). cbn [fst snd]. split.
    + assert (Hk : keeps id (bind (set e p false) (λ _, Get e))).
      { pose proof (keeps_set (@id DomainOptions) e).
        pose proof (keeps_Get (@id DomainOptions) e). keeps_tac. }
      apply Hk.
    + apply (returns_after_extends 1).
      apply returns_after_bind_r; [apply returns_after_set|].
      intros _. apply propagates_Get.
Qed.
End options_after_Create.

(** C9, amended: Get, Update, Renew, Delete, the four text methods and
    GetTokenOrigin leave every field of the caller's options as it was.
    Create leaves Hosts and Text as they were.  It opens with at most
    [maxSlugHashTimes] slug probes, the i-th a read of the path of the i-th
    generated name, a random slug, a dot and the root domain; a probe that
    reports key-not-found is the last one, and Fqdn then is the name of that
    probe; when no probe reports key-not-found all the probes are made and
    Fqdn is left as it was. *)
Theorem C9_options_frame {S : Type} {K : KeysAPI S} {R : Runtime}
    (e : BackendOperator) (w : World S) :
  dopts (Get e w).2 = dopts w ∧
  dopts (Update e w).2 = dopts w ∧
  dopts (Renew e w).2 = dopts w ∧
  dopts (Delete e w).2 = dopts w ∧
  dopts (CreateText e w).2 = dopts w ∧
  dopts (GetText e w).2 = dopts w ∧
  dopts (UpdateText e w).2 = dopts w ∧
  dopts (DeleteText e w).2 = dopts w ∧
  (∀ fqdn, dopts (GetTokenOrigin e fqdn w).2 = dopts w) ∧
  o_Hosts (dopts (Create e w).2) = o_Hosts (dopts w) ∧
  o_Text (dopts (Create e w).2) = o_Text (dopts w) ∧
  ∃ slug_probes rest,
    trace (Create e w).2 = trace w ++ slug_probes ++ rest ∧
    length slug_probes <= maxSlugHashTimes ∧
    (∀ i ev, slug_probes !! i = Some ev →
       ∃ r, ev = EvGet
                   (path e (RandStringWithSmall slugLength (draws w + i)
                            +:+ "." +:+ rootDomain e)) None r) ∧
    (∀ i ev, slug_probes !! i = Some ev → found_free ev = true →
       length slug_probes = Datatypes.S i ∧
       o_Fqdn (dopts (Create e w).2)
       = RandStringWithSmall slugLength (draws w + i)
         +:+ "." +:+ rootDomain e) ∧
    ((∀ ev, ev ∈ slug_probes → found_free ev = false) →
     length slug_probes = maxSlugHashTimes ∧
     o_Fqdn (dopts (Create e w).2) = o_Fqdn (dopts w)).
Proof.
  pose proof (keeps_Create e w) as Hc. simpl in Hc. inversion Hc.
  split; [apply (keeps_Get id)|]. split; [apply (keeps_Update id)|].
  split; [apply (keeps_Renew id)|]. split; [apply (keeps_Delete id)|].
  split; [apply (keeps_CreateText id)|]. split; [apply (keeps_GetText id)|].
  split; [apply (keeps_UpdateText id)|].
  split; [apply (keeps_DeleteText id)|].
  split; [intros fqdn; apply (keeps_GetTokenOrigin id)|].
  split; [done|]. split; [done|].
  destruct (Create_after_loop e w) as (Hd & rest & Ht). rewrite Hd.
  destruct (Create_loop_probes e maxSlugHashTimes "" w)
    as (evs & Htl & _ & Hlen & Hkeys & Hbefore & Hout).
  revert Hd Ht Htl Hout.
  generalize (Create_loop e maxSlugHashTimes "" w). intros run Hd Ht Htl Hout.
  exists evs, rest. split; [by rewrite Ht, Htl, <- app_assoc|].
  split; [exact Hlen|]. split; [exact Hkeys|].
  unfold slug_loop_outcome in Hout. rewrite last_lookup in Hout. split.
  - intros i ev Hi Hfree.
    assert (Hlt : i < length evs) by (by eapply lookup_lt_Some).
    assert (Hlast : length evs = Datatypes.S i).
    { destruct (decide (Datatypes.S i < length evs)) as [Hs|Hs]; [|lia].
      rewrite (Hbefore i ev Hi Hs) in Hfree. discriminate. }
    split; [exact Hlast|].
    rewrite Hlast in Hout. simpl in Hout. rewrite Hi in Hout.
    destruct Hout as [_ Hout]. rewrite Hfree in Hout. rewrite Hout. simpl.
    unfold slug_fqdn. do 3 f_equal. lia.
  - intros Hnone.
    destruct (evs !! pred (length evs)) as [ev|] eqn:Hev.
    + destruct Hout as [_ Hout].
      rewrite (Hnone ev) in Hout by (by eapply list_elem_of_lookup_2).
      destruct Hout as [Hl Hdo]. split; [exact Hl | by rewrite Hdo].
    + destruct Hout as [Hno _]. discriminate.
Qed.

(** ** The snapshots returned *)

Section snapshots.
Context {S : Type} {K : KeysAPI S} {R : Runtime}.
Implicit Types (e : BackendOperator) (w : World S).

Lemma set_result e path (exist : bool) w d w' :
  set e path exist w = (inr d, w') →
  ∃ resp,
    d = mkDomain (o_Fqdn (dopts w)) (o_Hosts (dopts w)) ""
          (Expiration (RespNode resp)) ∧
    EvSet path ""
      (Some (mkSetOptions (if exist then PrevExist else PrevIgnore)
               (duration e) true)) (inr resp) ∈ trace w'.
Proof.
  unfold set. intros Hrun.
  apply bind_inv in Hrun as [(y & Hy & [=])|([] & w1 & Htok & Hrun)].
  apply bind_inv in Hrun as [(y & Hy & [=])|(resp0 & w2 & Hdir & Hrun)].
  apply bind_inv in Hrun as [(y & Hy & [=])|(cur & w3 & Hcur & Hrun)].
  apply bind_inv in Hrun as [(y & Hy & [=])|(o & w3' & Ho & Hrun)].
  inversion Ho; subst o w3'. clear Ho.
  apply bind_inv in Hrun as [(y & Hy & [=])|([] & w4 & Hhosts & Hrun)].
  apply bind_inv in Hrun as [(y & Hy & [=])|(o & w4' & Ho & Hrun)].
  inversion Ho; subst o w4'. clear Ho. inversion Hrun; subst. clear Hrun.
  apply mapErr_inv_ok in Htok, Hdir, Hcur.
  destruct (setTokenOrigin_trace e exist w) as (Hd1 & _).
  rewrite Htok in Hd1. simpl in Hd1.
  match type of Hdir with kapi_Set ?k ?v ?o w1 = _ =>
    destruct (kapi_Set_trace k v o w1) as (Hd2 & Ht2) end.
  rewrite Hdir in Hd2, Ht2. simpl in Hd2, Ht2.
  apply lookupHosts_inv in Hcur as (resp & Ht3 & Hd3 & _).
  pose proof (keeps_set_hosts id path zeroDomain cur (o_Hosts (dopts w3)) w3)
    as Hd4.
  rewrite Hhosts in Hd4. simpl in Hd4.
  destruct (propagates_set_hosts path zeroDomain cur (o_Hosts (dopts w3)) w3)
    as (evs & Ht4 & _).
  rewrite Hhosts in Ht4. simpl in Ht4.
  assert (Hdw : dopts w' = dopts w) by (unfold id in *; congruence).
  exists resp0. split; [by rewrite Hdw|].
  rewrite Ht4, Ht3, Ht2. rewrite !elem_of_app, list_elem_of_singleton.
  left. left. by right.
Qed.

(** X18: what Update returns.  When Update returns without error, the
    snapshot carries the name and the hosts of the request exactly as given
    (order and duplicates kept; the store is not read again), no text, and the
    expiry reported by the write of the directory. *)
Theorem Update_returns_request e w d w' :
  Update e w = (inr d, w') →
  Fqdn d = o_Fqdn (dopts w) ∧ Hosts d = o_Hosts (dopts w) ∧ Text d = "" ∧
  ∃ opts resp,
    EvSet (path e (o_Fqdn (dopts w))) "" (Some opts) (inr resp) ∈ trace w' ∧
    set_Dir opts = true ∧ set_TTL opts = duration e ∧
    DExpiration d = Expiration (RespNode resp).
Proof.
  unfold Update. rewrite (bind_ok _ _ w (dopts w) w) by done.
  unfold bind at 1, attempt. rewrite kapi_Get_run. simpl. intros Hrun.
  apply set_result in Hrun as (resp & -> & Hin). simpl in *.
  repeat split. eexists _, resp. by repeat split.
Qed.

Lemma Get_run e w :
  let p := path e (o_Fqdn (dopts w)) in
  let rd := kGet (store w) p None in
  Get e w
  = (match rd.1 with
     | inl err => inl (zeroDomain, err)
     | inr resp =>
         Get_loop (Nodes (RespNode resp))
           (mkDomain (o_Fqdn (dopts w)) [] "" (Expiration (RespNode resp)))
     end,
     mkWorld rd.2 (dopts w) (draws w) (trace w ++ [EvGet p None rd.1])).
Proof.
  unfold Get, bind, readDopts, mapErr. rewrite kapi_Get_run. simpl.
  by destruct (kGet _ _ _) as [[err|resp] s1].
Qed.

Lemma Get_result e w d w' :
  Get e w = (inr d, w') →
  dopts w' = dopts w ∧
  ∃ resp hosts,
    trace w' = trace w ++ [EvGet (path e (o_Fqdn (dopts w))) None
                             (inr resp)] ∧
    Forall2 parsed_host
      (List.filter (λ n, negb (Dir n)) (Nodes (RespNode resp))) hosts ∧
    d = mkDomain (o_Fqdn (dopts w)) hosts "" (Expiration (RespNode resp)).
Proof.
  intros Hrun. pose proof (Get_run e w) as Hg. cbv zeta in Hg.
  rewrite Hg in Hrun. clear Hg.
  destruct (kGet (store w) (path e (o_Fqdn (dopts w))) None)
    as [[err|resp] s1]; cbn [fst snd] in Hrun; [congruence|].
  injection Hrun as Hloop Hw. subst w'. cbn [dopts trace].
  split; [done|].
  rewrite Get_loop_filter in Hloop. cbn [Hosts] in Hloop.
  pose proof (lookupHosts_loop_parsed
                (List.filter (λ n, negb (Dir n)) (Nodes (RespNode resp)))
                []) as Hspec.
  destruct (lookupHosts_loop
              (List.filter (λ n, negb (Dir n)) (Nodes (RespNode resp))) [])
    as [[hs err]|hs]; [congruence|].
  destruct Hspec as (hosts & Hall & ->). injection Hloop as <-.
  by exists resp, hosts.
Qed.

(** A Create that returns without error ended with a Get that did. *)
Lemma Create_ends_with_Get e w d w' :
  Create e w = (inr d, w') → ∃ w2, Get e w2 = (inr d, w').
Proof.
  unfold Create. generalize (Create_loop e maxSlugHashTimes "").
  intros loop Hrun.
  apply bind_inv in Hrun as [(y & Hy & Hno)|(p & w1 & _ & Hrun)];
    [congruence|].
  apply bind_inv in Hrun as [(y & Hy & Hno)|(d0 & w2 & _ & Hrun)];
    [congruence|].
  by exists w2.
Qed.

(** X19: what Get and Create return.  Get makes one read, of the domain's
    path; when it succeeds its snapshot has the name in the options, the
    expiry of the node read, no text, and one host for each child of the node
    that is not a directory, in the order of the listing.  Create, when it
    returns without error, returns the snapshot of such a read, made last, of
    the path of the name that is in the options when Create ends. *)
Theorem Get_and_Create_return_reread e w :
  (∀ d w', Get e w = (inr d, w') →
     ∃ resp hosts,
       trace w' = trace w ++ [EvGet (path e (o_Fqdn (dopts w))) None
                                (inr resp)] ∧
       Forall2 parsed_host
         (List.filter (λ n, negb (Dir n)) (Nodes (RespNode resp))) hosts ∧
       d = mkDomain (o_Fqdn (dopts w)) hosts ""
             (Expiration (RespNode resp))) ∧
  (∀ d w', Create e w = (inr d, w') →
     ∃ resp hosts,
       last (trace w')
       = Some (EvGet (path e (o_Fqdn (dopts w'))) None (inr resp)) ∧
       Forall2 parsed_host
         (List.filter (λ n, negb (Dir n)) (Nodes (RespNode resp))) hosts ∧
       d = mkDomain (o_Fqdn (dopts w')) hosts ""
             (Expiration (RespNode resp))).
Proof.
  split.
  - intros d w' Hrun. by destruct (Get_result e w d w' Hrun) as (_ & Hres).
  - intros d w' Hrun. apply Create_ends_with_Get in Hrun as [w2 Hrun].
    destruct (Get_result e w2 d w' Hrun) as (Hd & resp & hosts & Ht & Hall & ->).
    exists resp, hosts. rewrite Hd, Ht, last_snoc. done.
Qed.

(** X20: what Renew returns.  When Renew returns without error, the
    snapshot carries the name in the options, no text, the expiry reported by
    the refresh of the directory, and the hosts parsed from the store's
    listing of the directory, one per child: the hosts in the options are not
    looked at. *)
Theorem Renew_returns_stored_hosts e w d w' :
  Renew e w = (inr d, w') →
  ∃ dir listing,
    EvSet (path e (o_Fqdn (dopts w))) ""
      (Some (mkSetOptions PrevExist (duration e) true)) (inr dir)
    ∈ trace w' ∧
    EvGet (path e (o_Fqdn (dopts w))) (Some (mkGetOptions true false))
      (inr listing)
    ∈ trace w' ∧
    Forall2 parsed_host (Nodes (RespNode listing)) (Hosts d) ∧
    d = mkDomain (o_Fqdn (dopts w)) (Hosts d) ""
          (Expiration (RespNode dir)).
Proof.
  unfold Renew. rewrite (bind_ok _ _ w (dopts w) w) by done.
  unfold refreshExpiration. intros Hrun.
  apply bind_inv in Hrun as [(y & Hy & [=])|([] & w1 & Htok & Hrun)].
  apply bind_inv in Hrun as [(y & Hy & [=])|(resp0 & w2 & Hdir & Hrun)].
  apply bind_inv in Hrun as [(y & Hy & [=])|(cur & w3 & Hcur & Hrun)].
  apply bind_inv in Hrun as [(y & Hy & [=])|(o & w3' & Ho & Hrun)].
  inversion Ho; subst o w3'. clear Ho.
  apply bind_inv in Hrun as [(y & Hy & [=])|(listing & w4 & Hlist & Hrun)].
  apply bind_inv in Hrun as [(y & Hy & [=])|([] & w5 & Hacme & Hrun)].
  inversion Hrun; subst. clear Hrun.
  apply mapErr_inv_ok in Htok, Hdir, Hcur, Hlist.
  destruct (setTokenOrigin_trace e true w) as (Hd1 & _).
  rewrite Htok in Hd1. simpl in Hd1.
  match type of Hdir with kapi_Set ?k ?v ?o w1 = _ =>
    destruct (kapi_Set_trace k v o w1) as (Hd2 & Ht2) end.
  rewrite Hdir in Hd2, Ht2. simpl in Hd2, Ht2.
  apply lookupHosts_inv in Hcur as (resp & Ht3 & Hd3 & Hloop).
  match type of Hlist with kapi_Get ?k ?o w3 = _ =>
    destruct (kapi_Get_trace k o w3) as (Hd4 & Ht4) end.
  rewrite Hlist in Hd4, Ht4. simpl in Hd4, Ht4.
  apply refresh_acme_run in Hacme as (Hd5 & evs & Ht5 & _).
  assert (Hdw : dopts w3 = dopts w) by congruence.
  pose proof (lookupHosts_loop_parsed (Nodes (RespNode resp)) []) as Hspec.
  rewrite Hloop in Hspec. destruct Hspec as (hosts & Hall & ->).
  exists resp0, resp. simpl. rewrite Hdw.
  split; [|split; [|split; [done|done]]].
  - rewrite Ht5, Ht4, Ht3, Ht2. rewrite !elem_of_app, list_elem_of_singleton.
    left. left. left. by right.
  - rewrite Ht5, Ht4, Ht3. rewrite !elem_of_app, list_elem_of_singleton.
    left. left. by right.
Qed.
End snapshots.

Lemma Update_returns_request_witness :
  Fqdn (mkDomain "aaaaaa.lb.example.com" ["1.2.3.4"; "9.9.9.9"] ""
          (Some DefaultTTL))
  = o_Fqdn (dopts c5_w) ∧
  Hosts (mkDomain "aaaaaa.lb.example.com" ["1.2.3.4"; "9.9.9.9"] ""
           (Some DefaultTTL))
  = o_Hosts (dopts c5_w) ∧
  Text (mkDomain "aaaaaa.lb.example.com" ["1.2.3.4"; "9.9.9.9"] ""
          (Some DefaultTTL)) = "" ∧
  ∃ opts resp,
    EvSet (path demo_backend (o_Fqdn (dopts c5_w))) "" (Some opts) (inr resp)
    ∈ trace (Update (R := demo_runtime) demo_backend c5_w).2 ∧
    set_Dir opts = true ∧ set_TTL opts = duration demo_backend ∧
    DExpiration
      (mkDomain "aaaaaa.lb.example.com" ["1.2.3.4"; "9.9.9.9"] ""
         (Some DefaultTTL))
    = Expiration (RespNode resp).
Proof.
  apply (Update_returns_request (R := demo_runtime) demo_backend c5_w
           (mkDomain "aaaaaa.lb.example.com" ["1.2.3.4"; "9.9.9.9"] ""
              (Some DefaultTTL))
           (Update (R := demo_runtime) demo_backend c5_w).2).
  by vm_compute.
Defined.

Lemma Renew_returns_stored_hosts_witness :
  ∃ dir listing,
    EvSet (path demo_backend (o_Fqdn (dopts c7_w))) ""
      (Some (mkSetOptions PrevExist (duration demo_backend) true)) (inr dir)
    ∈ trace c7_run.2 ∧
    EvGet (path demo_backend (o_Fqdn (dopts c7_w)))
      (Some (mkGetOptions true false)) (inr listing)
    ∈ trace c7_run.2 ∧
    Forall2 (parsed_host (R := demo_runtime)) (Nodes (RespNode listing))
      (Hosts
         (mkDomain "aaaaaa.lb.example.com" ["1.2.3.4"] ""
            (Some (1000 + DefaultTTL)%Z))) ∧
    mkDomain "aaaaaa.lb.example.com" ["1.2.3.4"] ""
      (Some (1000 + DefaultTTL)%Z)
    = mkDomain (o_Fqdn (dopts c7_w))
        (Hosts
           (mkDomain "aaaaaa.lb.example.com" ["1.2.3.4"] ""
              (Some (1000 + DefaultTTL)%Z))) ""
        (Expiration (RespNode dir)).
Proof.
  apply (Renew_returns_stored_hosts (R := demo_runtime) demo_backend c7_w
           (mkDomain "aaaaaa.lb.example.com" ["1.2.3.4"] ""
              (Some (1000 + DefaultTTL)%Z)) c7_run.2).
  by vm_compute.
Defined.

(** ** Renew and the challenge record of a domain *)

(** X5: Renew refreshes the challenge record of its domain where the store
    lists it.  The path at which CreateText keeps the record of
    _acme-challenge.d is the ACME namespace, a slash and the labels of d
    joined by slashes.  In a Renew of d that returns without error, whenever
    the listing of the ACME namespace has a node, at any depth, whose key is
    that path, the calls after the listing hold a read of that key and a
    write back of the value read, with the backend's TTL. *)
Theorem acme_record_matched_by_Renew
    {S : Type} {K : KeysAPI S} {R : Runtime}
    (e : BackendOperator) (w : World S) (d : Domain) (w' : World S) :
  Renew e w = (inr d, w') →
  textPath e ("_acme-challenge." +:+ o_Fqdn (dopts w))
  = (prePath e +:+ "/_txt/_acme-challenge") +:+ "/"
    +:+ strings.Join (strings.Split (o_Fqdn (dopts w)) ".") "/" ∧
  ∃ pre listing evs,
    trace w'
    = trace w ++ pre
      ++ [EvGet (prePath e +:+ "/_txt/_acme-challenge")
            (Some (mkGetOptions true true)) (inr listing)]
      ++ evs ∧
    length pre = 4 ∧
    ∀ n, listed n (Nodes (RespNode listing)) →
         Key n = textPath e ("_acme-challenge." +:+ o_Fqdn (dopts w)) →
         ∃ resp resp' before after,
           evs = before ++ refresh_pair e (Key n) resp resp' ++ after.
Proof.
  intros Hrun.
  destruct (acme_record_path e (o_Fqdn (dopts w))) as [Hpath Hc].
  cbv zeta in Hpath, Hc. split; [exact Hpath|].
  apply Renew_acme_renewed in Hrun as (pre & listing & evs & Ht & Hl & Href).
  exists pre, listing, evs. split; [exact Ht|]. split; [exact Hl|].
  intros n Hn Hkey.
  apply (acme_refreshed_pair _ _ _ _ Href).
  - apply (listed_key n _ Hn), nodesToStringSlice_listing.
  - rewrite Hkey. exact Hc.
Qed.

Lemma acme_record_matched_by_Renew_witness :
  textPath demo_backend "_acme-challenge.aaaaaa.lb.example.com"
  = "/rdns/_txt/_acme-challenge/aaaaaa/lb/example/com" ∧
  ∃ pre listing evs,
    trace c7_run.2
    = trace c7_w ++ pre
      ++ [EvGet "/rdns/_txt/_acme-challenge" (Some (mkGetOptions true true))
            (inr listing)]
      ++ evs ∧
    length pre = 4 ∧
    ∀ n, listed n (Nodes (RespNode listing)) →
         Key n = "/rdns/_txt/_acme-challenge/aaaaaa/lb/example/com" →
         ∃ resp resp' before after,
           evs = before ++ refresh_pair demo_backend (Key n) resp resp'
                 ++ after.
Proof.
  apply (acme_record_matched_by_Renew (R := demo_runtime) demo_backend c7_w
           (mkDomain "aaaaaa.lb.example.com" ["1.2.3.4"] ""
              (Some (1000 + DefaultTTL)%Z)) c7_run.2).
  by vm_compute.
Defined.
